(** * arabic_nlp_utils.numbers: digit transcoding, number extraction,
      integer-to-words encoding and the lenient words-to-integer decoder.

    A shallow embedding of [arabic_nlp_utils/numbers.py].  A Python [str] is a
    sequence of Unicode code points; [int] is unbounded; list and dict
    subscripts may raise. *)

From Stdlib Require Import ZArith NArith Ascii String Lia.
From stdpp Require Import base numbers list option gmap.

Local Open Scope Z_scope.

(** ** Python values *)

(** A [str]: the list of its code points. *)
Abbreviation char := N.
Abbreviation str := (list N).

(** String literals of the source are written as they stand in the source
    file (UTF-8) and decoded to code points. *)
Fixpoint utf8_decode (bs : list N) : str :=
  match bs with
  | [] => []
  | b0 :: r0 =>
    if (b0 <? 128)%N then b0 :: utf8_decode r0
    else match r0 with
    | [] => []
    | b1 :: r1 =>
      if (b0 <? 224)%N
      then ((b0 mod 32) * 64 + b1 mod 64)%N :: utf8_decode r1
      else match r1 with
      | [] => []
      | b2 :: r2 =>
        if (b0 <? 240)%N
        then ((b0 mod 16) * 4096 + (b1 mod 64) * 64 + b2 mod 64)%N
               :: utf8_decode r2
        else match r2 with
        | [] => []
        | b3 :: r3 =>
          ((b0 mod 8) * 262144 + (b1 mod 64) * 4096
           + (b2 mod 64) * 64 + b3 mod 64)%N :: utf8_decode r3
        end
      end
    end
  end.

Fixpoint bytes_of (s : string) : list N :=
  match s with
  | EmptyString => []
  | String a s' => N_of_ascii a :: bytes_of s'
  end.

Definition lit (s : string) : str := utf8_decode (bytes_of s).

(** Exceptions the modelled code can raise, and the outcome of a call.
    [OutOfFuel] is not a Python outcome: it marks a bounded run of the
    [while] loop that was cut short. *)
Inductive exn := IndexError | KeyError | ValueError.

Inductive result (A : Type) :=
  | Ok (a : A)
  | Raise (e : exn)
  | OutOfFuel.
Arguments Ok {A} a.
Arguments Raise {A} e.
Arguments OutOfFuel {A}.

Definition result_bind {A B} (f : A → result B) (r : result A) : result B :=
  match r with
  | Ok a => f a
  | Raise e => Raise e
  | OutOfFuel => OutOfFuel
  end.

#[global] Instance result_mbind : MBind result := @result_bind.
#[global] Instance result_mret : MRet result := @Ok.

(** [l[i]] on a Python list: negative indices count from the end. *)
Definition list_getitem {A} (l : list A) (i : Z) : result A :=
  let j := if bool_decide (i < 0) then i + Z.of_nat (length l) else i in
  if bool_decide (j < 0) then Raise IndexError
  else match l !! Z.to_nat j with
       | Some x => Ok x
       | None => Raise IndexError
       end.

(** [d[k]] on a Python dict. *)
Definition dict_getitem {V} (d : gmap (list N) V) (k : str) : result V :=
  match d !! k with
  | Some v => Ok v
  | None => Raise KeyError
  end.

(** [sep.join(parts)]. *)
Fixpoint join (sep : str) (parts : list str) : str :=
  match parts with
  | [] => []
  | [p] => p
  | p :: ps => p ++ sep ++ join sep ps
  end.

(** [str.isspace] on one character, the set [str.strip()] removes. *)
Definition isspace (c : char) : bool :=
  bool_decide (c ∈ [9; 10; 11; 12; 13; 28; 29; 30; 31; 32; 133; 160; 5760;
                    8192; 8193; 8194; 8195; 8196; 8197; 8198; 8199; 8200;
                    8201; 8202; 8232; 8233; 8239; 8287; 12288]%N).

Fixpoint lstrip_by (p : char → bool) (s : str) : str :=
  match s with
  | [] => []
  | c :: s' => if p c then lstrip_by p s' else s
  end.

Definition rstrip_by (p : char → bool) (s : str) : str :=
  reverse (lstrip_by p (reverse s)).

(** [s.strip()] *)
Definition strip (s : str) : str := rstrip_by isspace (lstrip_by isspace s).

(** [s.rstrip(chars)] *)
Definition rstrip (chars : str) (s : str) : str :=
  rstrip_by (λ c, bool_decide (c ∈ chars)) s.

(** [s.endswith(t)] *)
Definition endswith (s t : str) : bool := bool_decide (t `suffix_of` s).

(** [s.split(sep)] for a one-character separator. *)
Fixpoint split_at (sep : char) (cur : str) (s : str) : list str :=
  match s with
  | [] => [cur]
  | c :: s' =>
    if bool_decide (c = sep) then cur :: split_at sep [] s'
    else split_at sep (cur ++ [c]) s'
  end.

Definition split (sep : char) (s : str) : list str := split_at sep [] s.

(** [s.replace(old, new)] for a non-empty [old]: scanning left to right,
    each occurrence of [old] is replaced and skipped over.  [skip] counts the
    characters of the current occurrence still to be passed. *)
Fixpoint replace_from (old new : str) (skip : nat) (s : str) : str :=
  match s with
  | [] => []
  | c :: s' =>
    match skip with
    | S k => replace_from old new k s'
    | O =>
      if bool_decide (old `prefix_of` s)
      then new ++ replace_from old new (length old - 1) s'
      else c :: replace_from old new 0 s'
    end
  end.

Definition replace (old new : str) (s : str) : str := replace_from old new 0 s.

(** ** Digit maps *)

Definition ARABIC_INDIC_DIGITS : str := Eval vm_compute in lit "٠١٢٣٤٥٦٧٨٩".
Definition EASTERN_ARABIC_DIGITS : str := Eval vm_compute in lit "۰۱۲۳۴۵۶۷۸۹".
Definition WESTERN_DIGITS : str := Eval vm_compute in lit "0123456789".

(** [str.maketrans(x, y)]: the dict sending [x[i]] to [y[i]]; a later
    duplicate key overrides an earlier one. *)
Definition maketrans (x y : str) : gmap N N :=
  foldl (λ m kv, <[kv.1 := kv.2]> m) ∅ (zip x y).

(** [s.translate(table)]: characters not in the table stay. *)
Definition translate_char (table : gmap N N) (c : char) : char :=
  default c (table !! c).

Definition translate (table : gmap N N) (s : str) : str :=
  translate_char table <$> s.

Definition _AR_TO_WEST := maketrans ARABIC_INDIC_DIGITS WESTERN_DIGITS.
Definition _WEST_TO_AR := maketrans WESTERN_DIGITS ARABIC_INDIC_DIGITS.
Definition _EAST_TO_WEST := maketrans EASTERN_ARABIC_DIGITS WESTERN_DIGITS.
Definition _WEST_TO_EAST := maketrans WESTERN_DIGITS EASTERN_ARABIC_DIGITS.
Definition _AR_TO_EAST := maketrans ARABIC_INDIC_DIGITS EASTERN_ARABIC_DIGITS.
Definition _EAST_TO_AR := maketrans EASTERN_ARABIC_DIGITS ARABIC_INDIC_DIGITS.

Definition to_western_numerals (text : str) : str :=
  translate _EAST_TO_WEST (translate _AR_TO_WEST text).

Definition to_arabic_numerals (text : str) : str :=
  translate _EAST_TO_AR (translate _WEST_TO_AR text).

Definition to_eastern_numerals (text : str) : str :=
  translate _AR_TO_EAST (translate _WEST_TO_EAST text).

(** The three targets of the transcoder, with their glyphs; [to_system]
    names the three entry points by their target. *)
Inductive DigitSystem := Western | ArabicIndic | EasternArabic.

Definition digits_of (S : DigitSystem) : str :=
  match S with
  | Western => WESTERN_DIGITS
  | ArabicIndic => ARABIC_INDIC_DIGITS
  | EasternArabic => EASTERN_ARABIC_DIGITS
  end.

Definition to_system (S : DigitSystem) : str → str :=
  match S with
  | Western => to_western_numerals
  | ArabicIndic => to_arabic_numerals
  | EasternArabic => to_eastern_numerals
  end.

(** ** Number extraction *)

(** The character class [[0-9]]. *)
Definition western_digit (c : char) : bool :=
  bool_decide (48 ≤ c)%N && bool_decide (c ≤ 57)%N.

(** [WESTERN_DIGIT_PATTERN.findall(s)]: the maximal runs of [[0-9]], left to
    right.  [cur] is the run being read. *)
Definition flush (cur : str) : list str :=
  match cur with [] => [] | _ => [cur] end.

Fixpoint findall_from (cur : str) (s : str) : list str :=
  match s with
  | [] => flush cur
  | c :: s' =>
    if western_digit c then findall_from (cur ++ [c]) s'
    else flush cur ++ findall_from [] s'
  end.

Definition findall_digits (s : str) : list str := findall_from [] s.

(** The value of [int(m)] on a run of Western digits: base 10, unbounded.
    It is what [int(m)] returns when it returns; [int_limited] below adds
    the interpreter's check on the length of the run. *)
Definition int_of_digits (m : str) : Z :=
  foldl (λ acc c, 10 * acc + (Z.of_N c - 48)) 0 m.

(** The numbers extracted, with the length check of [int] left out (as the
    interpreter behaves after [sys.set_int_max_str_digits(0)]). *)
Definition extract_numbers (text : str) : list Z :=
  let converted := to_western_numerals text in
  int_of_digits <$> findall_digits converted.

(** [int(m)] with the interpreter's limit on the digits of a converted
    string: a run of more than [max_str_digits] digits, leading zeros
    counted, is refused with ValueError.  [max_str_digits] is
    [sys.get_int_max_str_digits()]: 4300 unless the program or the
    environment sets it, and 0 when the check is turned off. *)
Definition DEFAULT_MAX_STR_DIGITS : nat := 4300.

Definition int_limited (max_str_digits : nat) (m : str) : result Z :=
  if bool_decide (max_str_digits ≠ 0%nat)
     && bool_decide (max_str_digits < length m)%nat
  then Raise ValueError
  else mret (int_of_digits m).

(** [[int(m) for m in runs]]: the runs are converted left to right and the
    first refusal ends the call. *)
Fixpoint ints_limited (max_str_digits : nat) (runs : list str)
    : result (list Z) :=
  match runs with
  | [] => mret []
  | m :: runs' =>
    n ← int_limited max_str_digits m;
    ns ← ints_limited max_str_digits runs';
    mret (n :: ns)
  end.

(** [extract_numbers] as the interpreter runs it under a given limit. *)
Definition extract_numbers_limited (max_str_digits : nat) (text : str)
    : result (list Z) :=
  let converted := to_western_numerals text in
  ints_limited max_str_digits (findall_digits converted).

(** ** Number to Arabic words *)

Definition _ONES : list str := Eval vm_compute in
  [[]; lit "واحد"; lit "اثنان"; lit "ثلاثة"; lit "أربعة"; lit "خمسة";
           lit "ستة"; lit "سبعة"; lit "ثمانية"; lit "تسعة"].
Definition _TEENS : list str := Eval vm_compute in
  [lit "عشرة"; lit "أحد عشر"; lit "اثنا عشر"; lit "ثلاثة عشر"; lit "أربعة عشر";
           lit "خمسة عشر"; lit "ستة عشر"; lit "سبعة عشر"; lit "ثمانية عشر"; lit "تسعة عشر"].
Definition _TENS : list str := Eval vm_compute in
  [[]; []; lit "عشرون"; lit "ثلاثون"; lit "أربعون"; lit "خمسون";
           lit "ستون"; lit "سبعون"; lit "ثمانون"; lit "تسعون"].
Definition _HUNDREDS : list str := Eval vm_compute in
  [[]; lit "مئة"; lit "مئتان"; lit "ثلاثمئة"; lit "أربعمئة"; lit "خمسمئة";
           lit "ستمئة"; lit "سبعمئة"; lit "ثمانمئة"; lit "تسعمئة"].
Definition _SCALE : list (str * str) := Eval vm_compute in
  [([], []);
     (lit "ألف", lit "آلاف");
     (lit "مليون", lit "ملايين");
     (lit "مليار", lit "مليارات");
     (lit "تريليون", lit "تريليونات")].

(** The literals used by the encoder and the decoder. *)
Definition WA : char := Eval vm_compute in default 0%N (head (lit "و")).
Definition SP_WA : str := Eval vm_compute in lit " و".
Definition SP : str := Eval vm_compute in lit " ".
Definition SIFR : str := Eval vm_compute in lit "صفر".
Definition SALIB_SP : str := Eval vm_compute in lit "سالب ".
Definition TA_MARBUTA : str := Eval vm_compute in lit "ة".
Definition DUAL_AN : str := Eval vm_compute in lit "ان".

(** [parts.append(table[i])] guarded by [if cond]. *)
Definition append_if (cond : bool) (table : list str) (i : Z)
    (parts : list str) : result (list str) :=
  if cond then w ← list_getitem table i; mret (parts ++ [w])
  else mret parts.

Definition _number_under_1000 (n : Z) : result str :=
  if bool_decide (n = 0) then mret []
  else
    let parts := [] in
    let hundreds := n `div` 100 in
    let remainder := n `mod` 100 in
    parts ← append_if (bool_decide (hundreds ≠ 0)) _HUNDREDS hundreds parts;
    parts ←
      (if bool_decide (10 ≤ remainder) && bool_decide (remainder ≤ 19)
       then append_if true _TEENS (remainder - 10) parts
       else
         let tens := remainder `div` 10 in
         let ones := remainder `mod` 10 in
         parts ← append_if (bool_decide (ones ≠ 0)) _ONES ones parts;
         append_if (bool_decide (tens ≠ 0)) _TENS tens parts);
    mret (join SP_WA parts).

(** The body of [if group != 0:] up to the word that is appended to
    [groups]: the under-1000 words, rewritten by the tier when
    [scale_idx > 0]. *)
Definition group_words_at (scale_idx group : Z) : result str :=
  group_words ← _number_under_1000 group;
  if bool_decide (0 < scale_idx) then
    '(singular, plural) ← list_getitem _SCALE scale_idx;
    if bool_decide (group = 1) then mret singular
    else if bool_decide (group = 2) then
      mret (if endswith singular TA_MARBUTA
            then rstrip TA_MARBUTA singular ++ DUAL_AN
            else singular ++ DUAL_AN)
    else if bool_decide (3 ≤ group) && bool_decide (group ≤ 10) then
      mret (group_words ++ SP ++ plural)
    else
      mret (group_words ++ SP ++ singular)
  else mret group_words.

(** [while remaining > 0: ...], run for at most [fuel] iterations. *)
Fixpoint while_remaining (fuel : nat) (remaining scale_idx : Z)
    (groups : list str) : result (list str) :=
  if bool_decide (0 < remaining) then
    match fuel with
    | O => OutOfFuel
    | S fuel' =>
      let group := remaining `mod` 1000 in
      groups ←
        (if bool_decide (group ≠ 0)
         then w ← group_words_at scale_idx group; mret (groups ++ [w])
         else mret groups);
      while_remaining fuel' (remaining `div` 1000) (scale_idx + 1) groups
    end
  else mret groups.

Fixpoint number_to_words_fuel (fuel : nat) (n : Z) : result str :=
  if bool_decide (n = 0) then mret SIFR
  else
    match fuel with
    | O => OutOfFuel
    | S fuel' =>
      if bool_decide (n < 0) then
        w ← number_to_words_fuel fuel' (- n); mret (SALIB_SP ++ w)
      else
        groups ← while_remaining fuel' n 0 [];
        mret (join SP_WA (reverse groups))
    end.

(** A number of iterations no run needs more than: one per binary digit of
    [n] for the loop, and two for the calls. *)
Definition fuel_for (n : Z) : nat := Z.to_nat (Z.log2 (Z.abs n)) + 3.

Definition number_to_words (n : Z) : result str :=
  number_to_words_fuel (fuel_for n) n.

(** ** Arabic words to number *)

(** [enumerate(l)] *)
Definition enumerate {A} (l : list A) : list (Z * A) :=
  zip (seqZ 0 (Z.of_nat (length l))) l.

(** The reverse lookup the decoder builds on each call. *)
Definition build_word_map : gmap (list N) Z :=
  let word_map : gmap (list N) Z := ∅ in
  let word_map :=
    foldl (λ m iw, if bool_decide (iw.2 ≠ []) then <[iw.2 := iw.1]> m else m)
          word_map (enumerate _ONES) in
  let word_map :=
    foldl (λ m iw, <[iw.2 := iw.1 + 10]> m) word_map (enumerate _TEENS) in
  let word_map :=
    foldl (λ m iw, if bool_decide (iw.2 ≠ []) then <[iw.2 := iw.1 * 10]> m
                   else m)
          word_map (enumerate _TENS) in
  let word_map :=
    foldl (λ m iw, if bool_decide (iw.2 ≠ []) then <[iw.2 := iw.1 * 100]> m
                   else m)
          word_map (enumerate _HUNDREDS) in
  let word_map := <[lit "ألف" := 1000]> word_map in
  let word_map := <[lit "ألفان" := 2000]> word_map in
  let word_map := <[lit "مليون" := 1000000]> word_map in
  let word_map := <[lit "مليار" := 1000000000]> word_map in
  word_map.

(** [for part in parts: ...] with the running [total]. *)
Fixpoint for_parts (word_map : gmap (list N) Z) (total : Z)
    (parts : list str) : result Z :=
  match parts with
  | [] => mret total
  | part :: parts' =>
    let part := strip part in
    total ←
      (if bool_decide (is_Some (word_map !! part))
       then v ← dict_getitem word_map part; mret (total + v)
       else mret total);
    for_parts word_map total parts'
  end.

Definition words_to_number (text : str) : result Z :=
  let text := strip text in
  if bool_decide (text = SIFR) then mret 0
  else
    let word_map := build_word_map in
    let parts := strip <$> split WA (replace SP_WA SP_WA text) in
    for_parts word_map 0 parts.


(** ** Definitions used to state the properties *)

(** What each entry point does to one character. *)
Definition to_system_char (T : DigitSystem) (c : char) : char :=
  match T with
  | Western => translate_char _EAST_TO_WEST (translate_char _AR_TO_WEST c)
  | ArabicIndic => translate_char _EAST_TO_AR (translate_char _WEST_TO_AR c)
  | EasternArabic => translate_char _AR_TO_EAST (translate_char _WEST_TO_EAST c)
  end.

Definition ALL_DIGITS : str :=
  WESTERN_DIGITS ++ ARABIC_INDIC_DIGITS ++ EASTERN_ARABIC_DIGITS.

(** The sum of a list of integers. *)
Definition Zsum (l : list Z) : Z := foldr Z.add 0 l.

(** What one part adds to the total. *)
Definition part_value (part : str) : Z :=
  default 0 (build_word_map !! strip part).

(** The digit value of a glyph: its position in the digit string of the
    system it belongs to. *)
Definition digit_index (S : DigitSystem) (c : char) : option nat :=
  fst <$> list_find (λ x, x = c) (digits_of S).

Definition digit_value (c : char) : option Z :=
  Z.of_nat <$>
    (digit_index Western c ∪ digit_index ArabicIndic c
     ∪ digit_index EasternArabic c).

(** The number a sequence of digit values denotes in base 10. *)
Definition decimal (vs : list Z) : Z := foldl (λ acc v, 10 * acc + v) 0 vs.

(** The character classes of [ARABIC_DIGIT_PATTERN], [EASTERN_DIGIT_PATTERN]
    and [ANY_DIGIT_PATTERN]: code point ranges. *)
Definition arabic_digit (c : char) : bool :=
  bool_decide (1632 ≤ c)%N && bool_decide (c ≤ 1641)%N.

Definition eastern_digit (c : char) : bool :=
  bool_decide (1776 ≤ c)%N && bool_decide (c ≤ 1785)%N.

Definition any_digit (c : char) : bool :=
  arabic_digit c || eastern_digit c || western_digit c.

(** [pattern.findall(s)] for a pattern [[class]+]: the maximal runs of
    characters of the class, left to right. *)
Fixpoint findall_class_from (class : char → bool) (cur : str) (s : str)
    : list str :=
  match s with
  | [] => flush cur
  | c :: s' =>
    if class c then findall_class_from class (cur ++ [c]) s'
    else flush cur ++ findall_class_from class [] s'
  end.

Definition findall_class (class : char → bool) (s : str) : list str :=
  findall_class_from class [] s.

(** Outcomes can be compared. *)
#[global] Instance exn_eq_dec : EqDecision exn.
Proof. solve_decision. Defined.

#[global] Instance result_eq_dec {A} `{EqDecision A} : EqDecision (result A).
Proof. solve_decision. Defined.

(** The text of [n], or the empty text when the encoder fails. *)
Definition words_or_nil (n : Z) : str :=
  match number_to_words n with Ok w => w | _ => [] end.

(** * Properties *)

(** ** The documented examples *)

Example to_western_doc :
  to_western_numerals (lit "العدد ١٢٣ أو ۴۵۶") = lit "العدد 123 أو 456".
Proof. vm_compute. reflexivity. Qed.

Example extract_numbers_doc :
  extract_numbers (lit "لدي ٢٣ تفاحة و 15 برتقالة") = [23; 15].
Proof. vm_compute. reflexivity. Qed.

Example extract_numbers_leading_zeros :
  extract_numbers (lit "007 و ۰۴۲") = [7; 42].
Proof. vm_compute. reflexivity. Qed.

Example number_to_words_2025 :
  number_to_words 2025 = Ok (lit "ألفان وخمسة وعشرون").
Proof. vm_compute. reflexivity. Qed.

Example words_to_number_15 : words_to_number (lit "خمسة عشر") = Ok 15.
Proof. vm_compute. reflexivity. Qed.

(** ** Digit transcoding *)

Lemma to_system_fmap T t : to_system T t = to_system_char T <$> t.
Proof.
  destruct T; cbn [to_system to_system_char];
    unfold to_western_numerals, to_arabic_numerals, to_eastern_numerals,
      translate; by rewrite <- list_fmap_compose.
Qed.

Lemma to_system_length T t : length (to_system T t) = length t.
Proof. by rewrite to_system_fmap, length_fmap. Qed.

Lemma to_system_lookup T t (i : nat) :
  to_system T t !! i = to_system_char T <$> (t !! i).
Proof. by rewrite to_system_fmap, list_lookup_fmap. Qed.

Lemma foldl_insert_lookup_None (l : list (N * N)) (m : gmap N N) c :
  c ∉ l.*1 → m !! c = None →
  foldl (λ m kv, <[kv.1 := kv.2]> m) m l !! c = None.
Proof.
  revert m. induction l as [|[k v] l IH]; intros m Hc Hm; [done|].
  cbn in *. apply not_elem_of_cons in Hc as [Hk Hl].
  apply IH; [done|]. by rewrite lookup_insert_ne.
Qed.

Lemma maketrans_lookup_None x y c : c ∉ x → maketrans x y !! c = None.
Proof.
  intros Hc. apply foldl_insert_lookup_None; [|done].
  intros [[k v] [-> Hin]]%list_elem_of_fmap. cbn in Hc.
  by apply elem_of_zip_l in Hin.
Qed.

Lemma translate_char_other x y c :
  c ∉ x → translate_char (maketrans x y) c = c.
Proof. intros Hc. unfold translate_char. by rewrite maketrans_lookup_None. Qed.

Lemma not_digit_all c :
  (∀ S, c ∉ digits_of S) ↔ c ∉ ALL_DIGITS.
Proof.
  unfold ALL_DIGITS. rewrite !not_elem_of_app. split.
  - intros H. exact (conj (H Western) (conj (H ArabicIndic) (H EasternArabic))).
  - intros (? & ? & ?) []; done.
Qed.

Lemma to_system_char_other T c : c ∉ ALL_DIGITS → to_system_char T c = c.
Proof.
  intros H. pose proof (proj2 (not_digit_all c) H) as Hall.
  pose proof (Hall Western) as HW. pose proof (Hall ArabicIndic) as HA.
  pose proof (Hall EasternArabic) as HE. cbn [digits_of] in HW, HA, HE.
  destruct T; cbn [to_system_char];
    unfold _AR_TO_WEST, _WEST_TO_AR, _EAST_TO_WEST, _WEST_TO_EAST,
      _AR_TO_EAST, _EAST_TO_AR;
    rewrite (translate_char_other _ _ c) by done;
    by rewrite (translate_char_other _ _ c).
Qed.

(** Case analysis on membership in an explicit list of characters. *)
Ltac elem_cases H :=
  repeat (apply elem_of_cons in H as [->|H]);
  [.. | by apply elem_of_nil in H].

Lemma to_system_char_back A B d :
  d ∈ digits_of A → to_system_char A (to_system_char B d) = d.
Proof.
  intros Hd. destruct A; cbn in Hd; elem_cases Hd;
    destruct B; vm_compute; reflexivity.
Qed.

Lemma to_system_char_idem T c :
  to_system_char T (to_system_char T c) = to_system_char T c.
Proof.
  destruct (decide (c ∈ ALL_DIGITS)) as [Hd|Hd].
  - unfold ALL_DIGITS, WESTERN_DIGITS, ARABIC_INDIC_DIGITS,
      EASTERN_ARABIC_DIGITS in Hd.
    cbn [app] in Hd. elem_cases Hd;
      destruct T; vm_compute; reflexivity.
  - by rewrite !(to_system_char_other _ c).
Qed.

Lemma to_western_char_absorbs T c :
  to_system_char Western (to_system_char T c) = to_system_char Western c.
Proof.
  destruct (decide (c ∈ ALL_DIGITS)) as [Hd|Hd].
  - unfold ALL_DIGITS, WESTERN_DIGITS, ARABIC_INDIC_DIGITS,
      EASTERN_ARABIC_DIGITS in Hd.
    cbn [app] in Hd. elem_cases Hd;
      destruct T; vm_compute; reflexivity.
  - by rewrite !(to_system_char_other _ c).
Qed.

Lemma to_system_idem T t : to_system T (to_system T t) = to_system T t.
Proof.
  rewrite !to_system_fmap, <- list_fmap_compose.
  apply list_fmap_ext. intros i c _. apply to_system_char_idem.
Qed.

Lemma to_western_absorbs T t :
  to_western_numerals (to_system T t) = to_western_numerals t.
Proof.
  change to_western_numerals with (to_system Western).
  rewrite !to_system_fmap, <- list_fmap_compose.
  apply list_fmap_ext. intros i c _. apply to_western_char_absorbs.
Qed.

(** C6: for distinct systems A and B and a digit d of A, transcoding to B and
    back to A returns d, both as a one-character text and at its position in
    any text; a character that is a digit of none of the three systems keeps
    its place and value under each of the three transcoders. *)
Theorem transcode_there_and_back :
  (∀ (A B : DigitSystem) (d : char),
      A ≠ B → d ∈ digits_of A → to_system A (to_system B [d]) = [d])
  ∧ (∀ (A B : DigitSystem) (t : str) (i : nat) (d : char),
      A ≠ B → d ∈ digits_of A → t !! i = Some d →
      to_system A (to_system B t) !! i = Some d)
  ∧ (∀ (T : DigitSystem) (t : str) (i : nat) (c : char),
      (∀ S, c ∉ digits_of S) → t !! i = Some c →
      to_system T t !! i = Some c
      ∧ length (to_system T t) = length t).
Proof.
  split; [|split].
  - intros A B d _ Hd. rewrite !to_system_fmap. cbn.
    by rewrite to_system_char_back.
  - intros A B t i d _ Hd Hi.
    rewrite !to_system_lookup, Hi. cbn. by rewrite to_system_char_back.
  - intros T t i c Hc Hi. split; [|apply to_system_length].
    rewrite to_system_lookup, Hi. cbn.
    by rewrite to_system_char_other by by apply not_digit_all.
Qed.

Lemma transcode_there_and_back_witness :
  to_system Western (to_system ArabicIndic [53%N]) = [53%N]
  ∧ to_system ArabicIndic (to_system EasternArabic (lit "a٥")) !! 1%nat
    = Some 1637%N
  ∧ to_system EasternArabic (lit "a5") !! 0%nat = Some 97%N.
Proof.
  destruct transcode_there_and_back as (H1 & H2 & H3).
  split; [|split].
  - apply H1; [discriminate|]. apply (bool_decide_unpack _). vm_compute. exact I.
  - apply H2; [discriminate| |reflexivity].
    apply (bool_decide_unpack _). vm_compute. exact I.
  - apply H3; [|reflexivity].
    intros []; apply (bool_decide_unpack _); vm_compute; exact I.
Defined.

(** C7: each of the three transcoders returns a text for every input text
    (they are functions from texts to texts with no failing step), and
    applying one of them a second time changes nothing. *)
Theorem transcoders_total_idempotent (t : str) :
  (∃ r : str, to_western_numerals t = r ∧ to_western_numerals r = r)
  ∧ (∃ r : str, to_arabic_numerals t = r ∧ to_arabic_numerals r = r)
  ∧ (∃ r : str, to_eastern_numerals t = r ∧ to_eastern_numerals r = r).
Proof.
  repeat split; eexists; (split; [reflexivity|]).
  - apply (to_system_idem Western).
  - apply (to_system_idem ArabicIndic).
  - apply (to_system_idem EasternArabic).
Qed.

(** C8: transcoding a text to any of the three digit systems before
    extraction does not change the extracted integers or their order. *)
Theorem extract_numbers_system_invariant (t : str) :
  extract_numbers (to_western_numerals t) = extract_numbers t
  ∧ extract_numbers (to_arabic_numerals t) = extract_numbers t
  ∧ extract_numbers (to_eastern_numerals t) = extract_numbers t.
Proof.
  unfold extract_numbers. repeat split.
  - by rewrite (to_western_absorbs Western).
  - by rewrite (to_western_absorbs ArabicIndic).
  - by rewrite (to_western_absorbs EasternArabic).
Qed.

(** ** Words to number *)

Lemma replace_from_same old k s :
  old ≠ [] → replace_from old old k s = drop k s.
Proof.
  intros Hold. revert k. induction s as [|c s IH]; intros k.
  - by rewrite drop_nil.
  - destruct k as [|k]; cbn [replace_from drop]; [|apply IH].
    case_bool_decide as Hpre.
    + destruct Hpre as [rest Hrest]. destruct old as [|o old]; [done|].
      injection Hrest as -> ->. rewrite IH. cbn [length].
      replace (S (length old) - 1)%nat with (length old) by lia.
      by rewrite drop_app_length.
    + by rewrite IH.
Qed.

Lemma replace_same old s : old ≠ [] → replace old old s = s.
Proof. intros H. unfold replace. by rewrite replace_from_same. Qed.

Lemma for_parts_sum (wm : gmap (list N) Z) total parts :
  for_parts wm total parts
  = Ok (total + Zsum ((λ p, default 0 (wm !! strip p)) <$> parts)).
Proof.
  revert total. induction parts as [|p parts IH]; intros total; cbn.
  - apply (f_equal Ok). lia.
  - unfold dict_getitem. destruct (wm !! strip p) as [v|] eqn:Hp; cbn.
    + rewrite IH. apply (f_equal Ok). unfold Zsum. lia.
    + rewrite IH. apply (f_equal Ok). unfold Zsum. lia.
Qed.

Lemma words_to_number_sum text :
  words_to_number text
  = Ok (if bool_decide (strip text = SIFR) then 0
        else Zsum (part_value <$> (strip <$> split WA (strip text)))).
Proof.
  unfold words_to_number. case_bool_decide; [done|].
  rewrite replace_same by done. rewrite for_parts_sum. f_equal.
Qed.

Lemma word_map_nonneg : map_Forall (λ _ v, 0 ≤ v) build_word_map.
Proof. apply (bool_decide_unpack _). vm_compute. exact I. Qed.

Lemma part_value_nonneg part : 0 ≤ part_value part.
Proof.
  unfold part_value. destruct (build_word_map !! strip part) eqn:H; cbn.
  - by apply word_map_nonneg in H.
  - done.
Qed.

Lemma Zsum_nonneg l : Forall (λ v, 0 ≤ v) l → 0 ≤ Zsum l.
Proof. unfold Zsum. induction 1; cbn [foldr]; lia. Qed.

Lemma words_to_number_nonneg text :
  ∃ z, words_to_number text = Ok z ∧ 0 ≤ z.
Proof.
  rewrite words_to_number_sum. eexists; split; [done|].
  case_bool_decide; [done|]. apply Zsum_nonneg.
  apply Forall_fmap, Forall_true. intros p. apply part_value_nonneg.
Qed.

(** ** Number to words *)

Lemma list_getitem_in_range {A} (l : list A) i :
  0 ≤ i < Z.of_nat (length l) → ∃ x, list_getitem l i = Ok x.
Proof.
  intros Hi. unfold list_getitem.
  rewrite (bool_decide_eq_false_2 (i < 0)) by lia.
  rewrite bool_decide_eq_false_2 by lia.
  destruct (lookup_lt_is_Some_2 l (Z.to_nat i)) as [x ->]; [lia|]. eauto.
Qed.

Lemma list_getitem_beyond {A} (l : list A) i :
  Z.of_nat (length l) ≤ i → list_getitem l i = Raise IndexError.
Proof.
  intros Hi. unfold list_getitem.
  rewrite (bool_decide_eq_false_2 (i < 0)) by lia.
  rewrite bool_decide_eq_false_2 by lia.
  rewrite lookup_ge_None_2; [done|lia].
Qed.

Lemma append_if_ok cond table i parts :
  0 ≤ i < Z.of_nat (length table) →
  ∃ parts', append_if cond table i parts = Ok parts'.
Proof.
  intros Hi. unfold append_if. destruct cond; [|by eexists].
  destruct (list_getitem_in_range table i Hi) as [w ->]. by eexists.
Qed.

(** Division and remainder by a constant, for [lia]. *)
Ltac divmod := Z.div_mod_to_equations; lia.

Lemma number_under_1000_ok g :
  0 ≤ g ≤ 999 → ∃ w, _number_under_1000 g = Ok w.
Proof.
  intros Hg. unfold _number_under_1000.
  case_bool_decide; [by eexists|].
  edestruct (append_if_ok (bool_decide (g `div` 100 ≠ 0)) _HUNDREDS
               (g `div` 100) []) as [p1 ->]; [cbn; divmod|].
  cbn [mbind result_mbind result_bind].
  destruct (bool_decide (10 ≤ g `mod` 100) && bool_decide (g `mod` 100 ≤ 19))
    eqn:Hteen.
  - apply andb_true_iff in Hteen as [?%bool_decide_eq_true ?%bool_decide_eq_true].
    edestruct (append_if_ok true _TEENS (g `mod` 100 - 10) p1) as [p2 ->];
      [cbn; lia|]. by eexists.
  - edestruct (append_if_ok (bool_decide ((g `mod` 100) `mod` 10 ≠ 0)) _ONES
                 ((g `mod` 100) `mod` 10) p1) as [p2 ->]; [cbn; divmod|].
    cbn [mbind result_mbind result_bind].
    edestruct (append_if_ok (bool_decide ((g `mod` 100) `div` 10 ≠ 0)) _TENS
                 ((g `mod` 100) `div` 10) p2) as [p3 ->]; [cbn; divmod|].
    by eexists.
Qed.

Lemma scale_getitem_beyond k : 5 ≤ k → list_getitem _SCALE k = Raise IndexError.
Proof. intros Hk. apply list_getitem_beyond. cbn. lia. Qed.

Lemma group_words_at_ok k g :
  1 ≤ g ≤ 999 → k ≤ 4 → ∃ w, group_words_at k g = Ok w.
Proof.
  intros Hg Hk. unfold group_words_at.
  destruct (number_under_1000_ok g) as [u ->]; [lia|].
  cbn [mbind result_mbind result_bind].
  case_bool_decide as Hpos; [|by eexists].
  destruct (list_getitem_in_range _SCALE k) as [[singular plural] ->];
    [cbn; lia|].
  cbn [mbind result_mbind result_bind].
  repeat case_match; by eexists.
Qed.

Lemma group_words_at_raise k g :
  1 ≤ g ≤ 999 → 5 ≤ k → group_words_at k g = Raise IndexError.
Proof.
  intros Hg Hk. unfold group_words_at.
  destruct (number_under_1000_ok g) as [u ->]; [lia|].
  cbn [mbind result_mbind result_bind].
  rewrite bool_decide_eq_true_2 by lia.
  by rewrite scale_getitem_beyond.
Qed.

Lemma while_remaining_done fuel r k groups :
  r ≤ 0 → while_remaining fuel r k groups = Ok groups.
Proof.
  intros Hr. destruct fuel; cbn [while_remaining];
    by rewrite bool_decide_eq_false_2 by lia.
Qed.

Lemma while_remaining_step fuel r k groups :
  0 < r →
  while_remaining (S fuel) r k groups
  = (groups' ←
       (if bool_decide (r `mod` 1000 ≠ 0)
        then w ← group_words_at k (r `mod` 1000); mret (groups ++ [w])
        else mret groups);
     while_remaining fuel (r `div` 1000) (k + 1) groups').
Proof.
  intros Hr. cbn [while_remaining]. by rewrite bool_decide_eq_true_2 by lia.
Qed.

Lemma pow2_fuel_pos (fuel : nat) : 0 < 2 ^ Z.of_nat fuel.
Proof. apply Z.pow_pos_nonneg; lia. Qed.

Lemma pow2_fuel_succ (fuel : nat) :
  2 ^ Z.of_nat (S fuel) = 2 * 2 ^ Z.of_nat fuel.
Proof. rewrite Nat2Z.inj_succ, Z.pow_succ_r; lia. Qed.

Lemma tier_below_5 r k :
  0 ≤ k → 0 < r → r * 1000 ^ k < 1000 ^ 5 → k ≤ 4.
Proof.
  intros Hk Hr Hlt. destruct (decide (k ≤ 4)) as [|Hbig]; [done|exfalso].
  assert (1000 ^ 5 ≤ 1000 ^ k) by (apply Z.pow_le_mono_r; lia).
  assert (0 < 1000 ^ k) by (apply Z.pow_pos_nonneg; lia).
  nia.
Qed.

(** Below 10^15 the loop ends with the list of group words. *)
Lemma while_remaining_ok fuel : ∀ r k groups,
  0 ≤ k → r < 2 ^ Z.of_nat fuel → r * 1000 ^ k < 1000 ^ 5 →
  ∃ gs, while_remaining fuel r k groups = Ok gs.
Proof.
  induction fuel as [|fuel IH]; intros r k groups Hk Hfuel Hlt;
    (destruct (decide (0 < r)) as [Hr|Hr];
       [|rewrite while_remaining_done by lia; by eexists]).
  { cbn in Hfuel. lia. }
  rewrite while_remaining_step by done.
  pose proof (tier_below_5 r k Hk Hr Hlt) as Hk4.
  pose proof (pow2_fuel_pos fuel) as Hp. rewrite pow2_fuel_succ in Hfuel.
  assert (0 < 1000 ^ k) as Hpk by (apply Z.pow_pos_nonneg; lia).
  assert (r `div` 1000 * 1000 ^ (k + 1) < 1000 ^ 5) as Hnext.
  { rewrite Z.pow_add_r, Z.pow_1_r by lia.
    assert (r `div` 1000 * 1000 ≤ r) by divmod. nia. }
  assert (r `div` 1000 < 2 ^ Z.of_nat fuel) as Hfuel' by divmod.
  case_bool_decide as Hgroup.
  - destruct (group_words_at_ok k (r `mod` 1000)) as [w ->]; [divmod|done|].
    cbn [mbind result_mbind result_bind mret result_mret].
    apply IH; [lia|done|done].
  - cbn [mbind result_mbind result_bind mret result_mret].
    apply IH; [lia|done|done].
Qed.

(** From 10^15 on the loop reaches a nonzero group at a tier the scale table
    does not have. *)
Lemma while_remaining_raise fuel : ∀ r k groups,
  0 ≤ k → 0 < r → r < 2 ^ Z.of_nat fuel → 1000 ^ 5 ≤ r * 1000 ^ k →
  while_remaining fuel r k groups = Raise IndexError.
Proof.
  induction fuel as [|fuel IH]; intros r k groups Hk Hr Hfuel Hge.
  { cbn in Hfuel. lia. }
  rewrite while_remaining_step by done.
  pose proof (pow2_fuel_pos fuel) as Hp. rewrite pow2_fuel_succ in Hfuel.
  assert (r `div` 1000 < 2 ^ Z.of_nat fuel) as Hfuel' by divmod.
  assert (0 < 1000 ^ k) as Hpk by (apply Z.pow_pos_nonneg; lia).
  assert (k ≤ 4 ∨ r `mod` 1000 = 0 →
          0 < r `div` 1000 ∧ 1000 ^ 5 ≤ r `div` 1000 * 1000 ^ (k + 1))
    as Hnext.
  { intros [Hk4|Hzero].
    - assert (k = 0 ∨ k = 1 ∨ k = 2 ∨ k = 3 ∨ k = 4) as Hcases by lia.
      destruct Hcases as [->|[->|[->|[->| ->]]]]; cbn in Hge |- *; divmod.
    - rewrite Z.pow_add_r, Z.pow_1_r by lia.
      assert (r = 1000 * (r `div` 1000)) as Hr1000 by divmod.
      split; [lia|]. rewrite Hr1000 in Hge. lia. }
  case_bool_decide as Hgroup.
  - destruct (decide (k ≤ 4)) as [Hk4|Hk5].
    + destruct (group_words_at_ok k (r `mod` 1000)) as [w ->]; [divmod|done|].
      cbn [mbind result_mbind result_bind mret result_mret].
      destruct Hnext as [? ?]; [by left|]. apply IH; [lia|done|done|done].
    + by rewrite group_words_at_raise by (lia || divmod).
  - cbn [mbind result_mbind result_bind mret result_mret].
    destruct Hnext as [? ?]; [right; lia|]. apply IH; [lia|done|done|done].
Qed.

(** A run that ended, normally or by an exception, ends the same way with
    more fuel. *)
Lemma while_remaining_more_fuel fuel : ∀ fuel' r k groups res,
  while_remaining fuel r k groups = res → res ≠ OutOfFuel →
  (fuel ≤ fuel')%nat → while_remaining fuel' r k groups = res.
Proof.
  induction fuel as [|fuel IH]; intros fuel' r k groups res Hrun Hres Hle;
    (destruct (decide (0 < r)) as [Hr|Hr];
       [|rewrite while_remaining_done in Hrun |- * by lia; done]).
  { cbn in Hrun. rewrite bool_decide_eq_true_2 in Hrun by done. congruence. }
  destruct fuel' as [|fuel']; [lia|].
  rewrite while_remaining_step in Hrun |- * by done.
  destruct (if bool_decide (r `mod` 1000 ≠ 0) then _ else _) as [gs|e|];
    cbn [mbind result_mbind result_bind] in Hrun |- *; [|done|done].
  eapply IH; [done|done|lia].
Qed.

Lemma number_to_words_fuel_pos fuel n :
  0 < n →
  number_to_words_fuel (S fuel) n
  = (groups ← while_remaining fuel n 0 []; mret (join SP_WA (reverse groups))).
Proof.
  intros Hn. cbn [number_to_words_fuel].
  rewrite bool_decide_eq_false_2 by lia. by rewrite bool_decide_eq_false_2 by lia.
Qed.

Lemma number_to_words_fuel_neg fuel n :
  n < 0 →
  number_to_words_fuel (S fuel) n
  = (w ← number_to_words_fuel fuel (- n); mret (SALIB_SP ++ w)).
Proof.
  intros Hn. cbn [number_to_words_fuel].
  rewrite bool_decide_eq_false_2 by lia. by rewrite bool_decide_eq_true_2 by lia.
Qed.

Lemma number_to_words_more_fuel fuel : ∀ fuel' n res,
  number_to_words_fuel fuel n = res → res ≠ OutOfFuel →
  (fuel ≤ fuel')%nat → number_to_words_fuel fuel' n = res.
Proof.
  induction fuel as [|fuel IH]; intros fuel' n res Hrun Hres Hle.
  - destruct (decide (n = 0)) as [->|Hn].
    + by destruct fuel'.
    + cbn in Hrun. rewrite bool_decide_eq_false_2 in Hrun by done. congruence.
  - destruct fuel' as [|fuel']; [lia|].
    destruct (Z.lt_trichotomy n 0) as [Hn|[->|Hn]]; [| done |].
    + rewrite number_to_words_fuel_neg in Hrun |- * by done.
      destruct (number_to_words_fuel fuel (- n)) as [w|e|] eqn:Hrec;
        cbn [mbind result_mbind result_bind] in Hrun;
        [| |congruence];
        (rewrite (IH fuel' (- n) _ Hrec); [exact Hrun|done|lia]).
    + rewrite number_to_words_fuel_pos in Hrun |- * by done.
      destruct (while_remaining fuel n 0 []) as [gs|e|] eqn:Hloop;
        cbn [mbind result_mbind result_bind] in Hrun;
        [| |congruence];
        (rewrite (while_remaining_more_fuel fuel fuel' n 0 [] _ Hloop);
           [exact Hrun|done|lia]).
Qed.

Lemma below_pow2_log2 n : 0 < n → n < 2 ^ Z.of_nat (Z.to_nat (Z.log2 n) + 1).
Proof.
  intros Hn. pose proof (Z.log2_spec n Hn) as [_ Hlt].
  pose proof (Z.log2_nonneg n).
  replace (Z.of_nat (Z.to_nat (Z.log2 n) + 1)) with (Z.succ (Z.log2 n)) by lia.
  done.
Qed.

Lemma number_to_words_pos_run n :
  0 < n →
  number_to_words n
  = (groups ← while_remaining (Z.to_nat (Z.log2 n) + 2) n 0 [];
     mret (join SP_WA (reverse groups))).
Proof.
  intros Hn. unfold number_to_words, fuel_for. rewrite Z.abs_eq by lia.
  replace (Z.to_nat (Z.log2 n) + 3)%nat
    with (S (Z.to_nat (Z.log2 n) + 2)) by lia.
  by rewrite number_to_words_fuel_pos.
Qed.

Lemma pos_fuel_enough n :
  0 < n → n < 2 ^ Z.of_nat (Z.to_nat (Z.log2 n) + 2).
Proof.
  intros Hn. pose proof (below_pow2_log2 n Hn) as Hlt.
  eapply Z.lt_le_trans; [exact Hlt|]. apply Z.pow_le_mono_r; lia.
Qed.

Lemma number_to_words_pos_ok n :
  0 < n < 10 ^ 15 → ∃ w, number_to_words n = Ok w.
Proof.
  intros [Hn Hlt]. rewrite number_to_words_pos_run by done.
  destruct (while_remaining_ok (Z.to_nat (Z.log2 n) + 2) n 0 []) as [gs ->];
    [done|by apply pos_fuel_enough|..].
  - rewrite Z.pow_0_r, Z.mul_1_r. exact Hlt.
  - by eexists.
Qed.

Lemma number_to_words_pos_raise n :
  10 ^ 15 ≤ n → number_to_words n = Raise IndexError.
Proof.
  intros Hge. assert (0 < n) as Hn by lia.
  rewrite number_to_words_pos_run by done.
  rewrite while_remaining_raise; [done|done|done|by apply pos_fuel_enough|].
  rewrite Z.pow_0_r, Z.mul_1_r. exact Hge.
Qed.

Lemma number_to_words_neg n :
  n < 0 →
  number_to_words n = (w ← number_to_words (- n); mret (SALIB_SP ++ w)).
Proof.
  intros Hn. unfold number_to_words at 1. unfold fuel_for at 1.
  replace (Z.to_nat (Z.log2 (Z.abs n)) + 3)%nat
    with (S (Z.to_nat (Z.log2 (Z.abs n)) + 2)) by lia.
  rewrite number_to_words_fuel_neg by done.
  destruct (number_to_words_fuel _ (- n)) as [w|e|] eqn:Hrec.
  - unfold number_to_words.
    by rewrite (number_to_words_more_fuel _ (fuel_for (- n)) _ _ Hrec);
      [|done|unfold fuel_for; rewrite Z.abs_opp; lia].
  - unfold number_to_words.
    by rewrite (number_to_words_more_fuel _ (fuel_for (- n)) _ _ Hrec);
      [|done|unfold fuel_for; rewrite Z.abs_opp; lia].
  - exfalso. revert Hrec.
    replace (Z.to_nat (Z.log2 (Z.abs n)) + 2)%nat
      with (S (Z.to_nat (Z.log2 (Z.abs n)) + 1)) by lia.
    rewrite number_to_words_fuel_pos by lia.
    rewrite Z.abs_neq by lia.
    destruct (decide (- n < 10 ^ 15)) as [Hlt|Hge].
    + destruct (while_remaining_ok (Z.to_nat (Z.log2 (- n)) + 1) (- n) 0 [])
        as [gs ->]; [done|apply below_pow2_log2; lia| |done].
      rewrite Z.pow_0_r, Z.mul_1_r. exact Hlt.
    + rewrite while_remaining_raise;
        [done|done|lia|apply below_pow2_log2; lia|].
      rewrite Z.pow_0_r, Z.mul_1_r. lia.
Qed.

Lemma number_to_words_ok n :
  Z.abs n < 10 ^ 15 → ∃ w, number_to_words n = Ok w.
Proof.
  intros Hn. destruct (Z.lt_trichotomy n 0) as [Hneg|[->|Hpos]].
  - rewrite number_to_words_neg by done.
    destruct (number_to_words_pos_ok (- n)) as [w ->]; [lia|]. by eexists.
  - by eexists.
  - apply number_to_words_pos_ok. lia.
Qed.

Lemma number_to_words_raise n :
  10 ^ 15 ≤ Z.abs n → number_to_words n = Raise IndexError.
Proof.
  intros Hn. destruct (Z.lt_trichotomy n 0) as [Hneg|[->|Hpos]].
  - rewrite number_to_words_neg by done.
    by rewrite number_to_words_pos_raise by lia.
  - cbn in Hn. lia.
  - apply number_to_words_pos_raise. lia.
Qed.

Lemma number_to_words_fuel_enough n fuel :
  (fuel_for n ≤ fuel)%nat → number_to_words_fuel fuel n = number_to_words n.
Proof.
  intros Hle. eapply number_to_words_more_fuel; [reflexivity| |done].
  fold (number_to_words n).
  destruct (decide (Z.abs n < 10 ^ 15)) as [Hlt|Hge].
  - by destruct (number_to_words_ok n Hlt) as [w ->].
  - by rewrite number_to_words_raise by lia.
Qed.

Lemma while_remaining_append fuel r t groups W :
  0 < r → r `mod` 1000 ≠ 0 → group_words_at t (r `mod` 1000) = Ok W →
  while_remaining (S fuel) r t groups
  = while_remaining fuel (r `div` 1000) (t + 1) (groups ++ [W]).
Proof.
  intros Hr Hg HW. rewrite while_remaining_step by done.
  rewrite bool_decide_eq_true_2 by done. by rewrite HW.
Qed.

Lemma while_remaining_skip fuel r k groups :
  0 < r →
  while_remaining (S fuel) (r * 1000) k groups
  = while_remaining fuel r (k + 1) groups.
Proof.
  intros Hr. rewrite while_remaining_step by lia.
  rewrite Z.mod_mul, Z.div_mul by lia.
  by rewrite bool_decide_eq_false_2 by (intros H; by apply H).
Qed.

Lemma fuel_for_at_least_6 n : 8 ≤ n → (6 ≤ fuel_for n)%nat.
Proof.
  intros Hn. unfold fuel_for. rewrite Z.abs_eq by lia.
  pose proof (Z.log2_le_mono 8 n Hn) as Hlog.
  change (Z.log2 8) with 3 in Hlog. lia.
Qed.

(** The words of a number with one nonzero group, at tier 1 to 4. *)
Lemma number_to_words_single_group t g W :
  1 ≤ t ≤ 4 → 1 ≤ g ≤ 999 → group_words_at t g = Ok W →
  number_to_words (g * 1000 ^ t) = Ok W.
Proof.
  intros Ht Hg HW.
  assert (g `mod` 1000 = g ∧ g `div` 1000 = 0) as [Hmod Hdiv]
    by (split; divmod).
  assert (1000 ≤ g * 1000 ^ t) as Hbig.
  { assert (1000 ^ 1 ≤ 1000 ^ t) by (apply Z.pow_le_mono_r; lia). nia. }
  eapply (number_to_words_more_fuel 6); [|done|apply fuel_for_at_least_6; lia].
  rewrite number_to_words_fuel_pos by lia.
  assert (t = 1 ∨ t = 2 ∨ t = 3 ∨ t = 4) as Hcases by lia.
  destruct Hcases as [->|[->|[-> | ->]]].
  - change (1000 ^ 1) with 1000.
    rewrite while_remaining_skip by lia. change (0 + 1) with 1.
    rewrite (while_remaining_append _ _ _ _ W) by (rewrite ?Hmod; done || lia).
    by rewrite while_remaining_done by lia.
  - replace (g * 1000 ^ 2) with (g * 1000 * 1000) by lia.
    rewrite !while_remaining_skip by lia. change (0 + 1 + 1) with 2.
    rewrite (while_remaining_append _ _ _ _ W) by (rewrite ?Hmod; done || lia).
    by rewrite while_remaining_done by lia.
  - replace (g * 1000 ^ 3) with (g * 1000 * 1000 * 1000) by lia.
    rewrite !while_remaining_skip by lia. change (0 + 1 + 1 + 1) with 3.
    rewrite (while_remaining_append _ _ _ _ W) by (rewrite ?Hmod; done || lia).
    by rewrite while_remaining_done by lia.
  - replace (g * 1000 ^ 4) with (g * 1000 * 1000 * 1000 * 1000) by lia.
    rewrite !while_remaining_skip by lia. change (0 + 1 + 1 + 1 + 1) with 4.
    rewrite (while_remaining_append _ _ _ _ W) by (rewrite ?Hmod; done || lia).
    by rewrite while_remaining_done by lia.
Qed.

Lemma scale_entry_no_ta t singular plural :
  1 ≤ t → list_getitem _SCALE t = Ok (singular, plural) →
  t ≤ 4 ∧ endswith singular TA_MARBUTA = false.
Proof.
  intros Ht Hscale. destruct (decide (t ≤ 4)) as [Ht4|Ht5].
  - split; [done|].
    assert (t = 1 ∨ t = 2 ∨ t = 3 ∨ t = 4) as Hcases by lia.
    destruct Hcases as [->|[->|[-> | ->]]]; vm_compute in Hscale;
      injection Hscale as <- <-; vm_compute; reflexivity.
  - rewrite scale_getitem_beyond in Hscale by lia. done.
Qed.

(** The tier rule at a tier that has an entry in the scale table, with
    forms (singular, plural): the word W a nonzero group g contributes. *)
Lemma tier_agreement_table (t g : Z) (singular plural : str) :
  1 ≤ t → 1 ≤ g ≤ 999 → list_getitem _SCALE t = Ok (singular, plural) →
  ∃ under W : str,
    _number_under_1000 g = Ok under
    ∧ group_words_at t g = Ok W
    ∧ (∀ fuel r groups, 0 < r → r `mod` 1000 = g →
         while_remaining (S fuel) r t groups
         = while_remaining fuel (r `div` 1000) (t + 1) (groups ++ [W]))
    ∧ number_to_words (g * 1000 ^ t) = Ok W
    ∧ (g = 1 → W = singular)
    ∧ (g = 2 →
         W = (if endswith singular TA_MARBUTA
              then rstrip TA_MARBUTA singular else singular) ++ DUAL_AN
         ∧ W = singular ++ DUAL_AN)
    ∧ (3 ≤ g ≤ 10 → W = under ++ SP ++ plural)
    ∧ (11 ≤ g ≤ 999 → W = under ++ SP ++ singular).
Proof.
  intros Ht Hg Hscale.
  destruct (scale_entry_no_ta t singular plural Ht Hscale) as [Ht4 Hta].
  destruct (number_under_1000_ok g) as [under Hunder]; [lia|].
  destruct (group_words_at_ok t g Hg Ht4) as [W HW].
  exists under, W. split; [done|]. split; [done|].
  split; [|split; [by apply number_to_words_single_group|]].
  { intros fuel r groups Hr Hmod. subst g.
    apply while_remaining_append; [done|lia|done]. }
  unfold group_words_at in HW. rewrite Hunder in HW.
  cbn [mbind result_mbind result_bind] in HW.
  rewrite bool_decide_eq_true_2, Hscale in HW by lia.
  cbn [mbind result_mbind result_bind] in HW.
  unfold mret, result_mret in HW. rewrite Hta in HW |- *.
  split; [|split; [|split]].
  - intros ->. rewrite bool_decide_eq_true_2 in HW by done. congruence.
  - intros ->. rewrite bool_decide_eq_false_2, bool_decide_eq_true_2 in HW
      by done. by injection HW as <-.
  - intros H3. rewrite !bool_decide_eq_false_2 in HW by lia.
    rewrite !bool_decide_eq_true_2 in HW by lia. cbn [andb] in HW.
    by injection HW as <-.
  - intros H11. rewrite !bool_decide_eq_false_2 in HW by lia.
    rewrite (bool_decide_eq_true_2 (3 ≤ g)) in HW by lia.
    rewrite (bool_decide_eq_false_2 (g ≤ 10)) in HW by lia. cbn [andb] in HW.
    by injection HW as <-.
Qed.

(** C4, as the code has it: at a tier t in [1, 4], the tiers of the scale
    table, with forms (singular, plural), a nonzero group g in [1, 999]
    contributes the word W to [groups], where W is the singular alone when
    g = 1; the singular with the dual ending when g = 2 (a trailing ta
    marbuta would be stripped first; no singular of the table has one); the
    under-1000 words, a space and the plural when 3 <= g <= 10; the
    under-1000 words, a space and the singular when 11 <= g <= 999.  W is
    what one loop iteration appends, and it is the whole output for the
    number g * 1000^t.  At a tier t >= 5 a nonzero group gives no words:
    the lookup in the scale table raises IndexError, and so do the loop
    iteration and the call for g * 1000^t. *)
Theorem tier_agreement_within_scale (t g : Z) :
  1 ≤ g ≤ 999 →
  (1 ≤ t ≤ 4 →
     ∃ singular plural under W : str,
       list_getitem _SCALE t = Ok (singular, plural)
       ∧ _number_under_1000 g = Ok under
       ∧ group_words_at t g = Ok W
       ∧ (∀ fuel r groups, 0 < r → r `mod` 1000 = g →
            while_remaining (S fuel) r t groups
            = while_remaining fuel (r `div` 1000) (t + 1) (groups ++ [W]))
       ∧ number_to_words (g * 1000 ^ t) = Ok W
       ∧ (g = 1 → W = singular)
       ∧ (g = 2 →
            W = (if endswith singular TA_MARBUTA
                 then rstrip TA_MARBUTA singular else singular) ++ DUAL_AN
            ∧ W = singular ++ DUAL_AN)
       ∧ (3 ≤ g ≤ 10 → W = under ++ SP ++ plural)
       ∧ (11 ≤ g ≤ 999 → W = under ++ SP ++ singular))
  ∧ (5 ≤ t →
       list_getitem _SCALE t = Raise IndexError
       ∧ group_words_at t g = Raise IndexError
       ∧ (∀ fuel r groups, 0 < r → r `mod` 1000 = g →
            while_remaining (S fuel) r t groups = Raise IndexError)
       ∧ number_to_words (g * 1000 ^ t) = Raise IndexError).
Proof.
  intros Hg. split.
  - intros Ht.
    destruct (list_getitem_in_range _SCALE t) as [[singular plural] Hscale];
      [cbn; lia|].
    destruct (tier_agreement_table t g singular plural) as (under & W & H);
      [lia|done|done|].
    by exists singular, plural, under, W.
  - intros Ht.
    pose proof (group_words_at_raise t g Hg Ht) as Hraise.
    split; [by apply scale_getitem_beyond|]. split; [done|]. split.
    + intros fuel r groups Hr Hmod. rewrite while_remaining_step by done.
      rewrite bool_decide_eq_true_2 by lia. by rewrite Hmod, Hraise.
    + apply number_to_words_raise.
      assert (1000 ^ 5 ≤ 1000 ^ t) as Hpow by (apply Z.pow_le_mono_r; lia).
      replace (10 ^ 15) with (1000 ^ 5) by reflexivity. nia.
Qed.

Lemma tier_agreement_within_scale_witness :
  (∃ singular plural under W : str,
     list_getitem _SCALE 1 = Ok (singular, plural)
     ∧ group_words_at 1 2 = Ok W
     ∧ number_to_words (2 * 1000 ^ 1) = Ok W
     ∧ W = singular ++ DUAL_AN)
  ∧ number_to_words (3 * 1000 ^ 5) = Raise IndexError.
Proof.
  destruct (tier_agreement_within_scale 1 2) as [Hin _]; [lia|].
  destruct (tier_agreement_within_scale 5 3) as [_ Hout]; [lia|].
  split.
  - destruct Hin as (singular & plural & under & W & Hs & _ & HW & _ & Hrun
                     & _ & Hdual & _); [lia|].
    exists singular, plural, under, W.
    destruct Hdual as [_ Hdual]; [reflexivity|]. done.
  - destruct Hout as (_ & _ & _ & Hrun); [lia|]. exact Hrun.
Defined.

(** C4 as stated fails: at tier 5 a nonzero group has no words, the scale
    table has no entry to take a singular or a plural from. *)
Lemma tier_agreement_fails_at_tier_5 :
  list_getitem _SCALE 5 = Raise IndexError
  ∧ group_words_at 5 3 = Raise IndexError
  ∧ number_to_words (3 * 1000 ^ 5) = Raise IndexError
  ∧ ¬ (∀ t g, 1 ≤ t → 1 ≤ g ≤ 999 → ∃ W, group_words_at t g = Ok W).
Proof.
  assert (group_words_at 5 3 = Raise IndexError) as Hraise
    by (vm_compute; reflexivity).
  split; [vm_compute; reflexivity|]. split; [exact Hraise|].
  split; [vm_compute; reflexivity|].
  intros Hall. destruct (Hall 5 3) as [W HW]; [lia|lia|]. congruence.
Qed.

(** C2, as the code has it: [number_to_words] returns a text for every
    integer n with |n| < 10^15 and raises IndexError for every n with
    |n| >= 10^15, where the top group needs a tier the scale table does not
    have; the outcome does not depend on the fuel once it reaches
    [fuel_for n]. *)
Theorem number_to_words_total_within_scale (n : Z) :
  (Z.abs n < 10 ^ 15 → ∃ w, number_to_words n = Ok w)
  ∧ (10 ^ 15 ≤ Z.abs n → number_to_words n = Raise IndexError)
  ∧ (∀ fuel, (fuel_for n ≤ fuel)%nat →
       number_to_words_fuel fuel n = number_to_words n).
Proof.
  split; [apply number_to_words_ok|].
  split; [apply number_to_words_raise|].
  intros fuel. apply number_to_words_fuel_enough.
Qed.

Lemma number_to_words_total_within_scale_witness :
  (∃ w, number_to_words (-2025) = Ok w)
  ∧ number_to_words (10 ^ 15) = Raise IndexError
  ∧ number_to_words_fuel 60 (-2025) = number_to_words (-2025).
Proof.
  split; [|split].
  - apply (number_to_words_total_within_scale (-2025)). reflexivity.
  - apply (number_to_words_total_within_scale (10 ^ 15)). lia.
  - apply (number_to_words_total_within_scale (-2025)).
    apply (bool_decide_unpack _). vm_compute. exact I.
Defined.

(** C2 as stated fails: at n = 10^15 the call raises and returns no text. *)
Lemma number_to_words_not_total :
  number_to_words (10 ^ 15) = Raise IndexError
  ∧ ¬ (∀ n : Z, ∃ w, number_to_words n = Ok w).
Proof.
  assert (number_to_words (10 ^ 15) = Raise IndexError) as Hraise
    by (vm_compute; reflexivity).
  split; [exact Hraise|].
  intros Htotal. destruct (Htotal (10 ^ 15)) as [w Hw]. congruence.
Qed.

(** C5: the fixed example outputs of the encoder. *)
Theorem number_to_words_examples :
  number_to_words 0 = Ok (lit "صفر")
  ∧ number_to_words 1 = Ok (lit "واحد")
  ∧ number_to_words 15 = Ok (lit "خمسة عشر")
  ∧ number_to_words 20 = Ok (lit "عشرون")
  ∧ number_to_words 123 = Ok (lit "مئة وثلاثة وعشرون")
  ∧ number_to_words 1000 = Ok (lit "ألف")
  ∧ number_to_words 2025 = Ok (lit "ألفان وخمسة وعشرون")
  ∧ number_to_words (-5) = Ok (lit "سالب خمسة").
Proof. repeat split; vm_compute; reflexivity. Qed.

(** ** Decoding *)

(** No part produced by [split] contains the separator. *)
Lemma split_at_no_sep sep s : ∀ cur part,
  sep ∉ cur → part ∈ split_at sep cur s → sep ∉ part.
Proof.
  induction s as [|c s IH]; intros cur part Hcur Hin; cbn in Hin.
  - apply list_elem_of_singleton in Hin. by subst.
  - case_bool_decide as Hc.
    + apply elem_of_cons in Hin as [->|Hin]; [done|].
      eapply IH; [|exact Hin]. apply not_elem_of_nil.
    + eapply IH; [|exact Hin]. rewrite not_elem_of_app. split; [done|].
      rewrite list_elem_of_singleton. congruence.
Qed.

(** C1, evaluated: the round trip through the decoder loses every word that
    contains the letter waw, because the decoder splits on that letter.
    1 is encoded as the single word of the ones table and decoded to 0;
    20 is decoded to 0 and 123 to 103; the decoder's own table maps the
    encoded word of 1 to 1, but no part it looks up can contain a waw. *)
Theorem roundtrip_loses_words_with_waw :
  number_to_words 1 = Ok (lit "واحد")
  ∧ build_word_map !! lit "واحد" = Some 1
  ∧ words_to_number (lit "واحد") = Ok 0
  ∧ (number_to_words 1 ≫= words_to_number) = Ok 0
  ∧ (number_to_words 20 ≫= words_to_number) = Ok 0
  ∧ (number_to_words 123 ≫= words_to_number) = Ok 103
  ∧ (∀ text part, part ∈ split WA text → WA ∉ part).
Proof.
  repeat split; try (vm_compute; reflexivity).
  intros text part Hin. eapply split_at_no_sep; [|exact Hin].
  apply not_elem_of_nil.
Qed.

(** C3, evaluated: three of the four scale entries of the decoder's table
    decode to their value when they are the whole input; the entry for one
    million is in the table with value 1000000 but contains a waw, so the
    input is split inside the word and decodes to 0. *)
Theorem scale_words_decoded :
  words_to_number (lit "ألف") = Ok 1000
  ∧ words_to_number (lit "ألفان") = Ok 2000
  ∧ words_to_number (lit "مليار") = Ok 1000000000
  ∧ build_word_map !! lit "مليون" = Some 1000000
  ∧ split WA (lit "مليون") = [lit "ملي"; lit "ن"]
  ∧ words_to_number (lit "مليون") = Ok 0.
Proof. repeat split; vm_compute; reflexivity. Qed.

(** C9: the decoder returns an integer for every text; a part that is not a
    key of the table leaves the running total unchanged, a part that is a
    key adds its value, so the result is the sum of the values of the parts
    found; and the three documented inputs decode to 0, 3 and 15. *)
Theorem words_to_number_lenient :
  (∀ text, ∃ z, words_to_number text = Ok z)
  ∧ (∀ total part parts, build_word_map !! strip part = None →
       for_parts build_word_map total (part :: parts)
       = for_parts build_word_map total parts)
  ∧ (∀ total part parts v, build_word_map !! strip part = Some v →
       for_parts build_word_map total (part :: parts)
       = for_parts build_word_map (total + v) parts)
  ∧ (∀ text, words_to_number text
       = Ok (if bool_decide (strip text = SIFR) then 0
             else Zsum (part_value <$> (strip <$> split WA (strip text)))))
  ∧ words_to_number (lit "صفر") = Ok 0
  ∧ words_to_number (lit "ثلاثة") = Ok 3
  ∧ words_to_number (lit "خمسة عشر") = Ok 15.
Proof.
  split; [|split; [|split; [|split]]].
  - intros text. destruct (words_to_number_nonneg text) as (z & Hz & _).
    by exists z.
  - intros total part parts Hnone. cbn [for_parts]. by rewrite Hnone.
  - intros total part parts v Hsome. cbn [for_parts].
    unfold dict_getitem. by rewrite Hsome.
  - apply words_to_number_sum.
  - repeat split; vm_compute; reflexivity.
Qed.

Lemma words_to_number_lenient_witness :
  for_parts build_word_map 100 [lit " كلمة "; lit " ثلاثة "] = Ok 103.
Proof.
  destruct words_to_number_lenient as (_ & Hskip & Hadd & _).
  rewrite Hskip by reflexivity.
  rewrite (Hadd _ _ _ 3) by reflexivity. reflexivity.
Defined.

(** C10: the decoder returns a non-negative integer for every text: every
    value of its table is non-negative and the negative marker is not a
    key; so for every negative n the encoder can spell, decoding the
    encoded text gives a non-negative integer, never n. *)
Theorem words_to_number_nonnegative :
  (∀ text, ∃ z, words_to_number text = Ok z ∧ 0 ≤ z)
  ∧ (∀ word v, build_word_map !! word = Some v → 0 ≤ v)
  ∧ build_word_map !! lit "سالب" = None
  ∧ (∀ n, n < 0 → - 10 ^ 15 < n →
       ∃ w z, number_to_words n = Ok w ∧ words_to_number w = Ok z
              ∧ 0 ≤ z ∧ z ≠ n).
Proof.
  split; [apply words_to_number_nonneg|].
  split; [intros word v Hv; by apply word_map_nonneg in Hv|].
  split; [vm_compute; reflexivity|].
  intros n Hneg Hlow.
  destruct (number_to_words_ok n) as [w Hw]; [lia|].
  destruct (words_to_number_nonneg w) as (z & Hz & Hpos).
  exists w, z. repeat split; [done|done|done|lia].
Qed.

Lemma words_to_number_nonnegative_witness :
  (0 ≤ 3)
  ∧ ∃ w z, number_to_words (-5) = Ok w ∧ words_to_number w = Ok z
           ∧ 0 ≤ z ∧ z ≠ -5.
Proof.
  destruct words_to_number_nonnegative as (_ & Hval & _ & Hsign).
  split.
  - apply (Hval (lit "ثلاثة") 3). reflexivity.
  - apply (Hsign (-5)); reflexivity.
Defined.

(** * Further properties of the module *)

(** ** Transcoding *)

Lemma to_system_char_last A B c :
  to_system_char A (to_system_char B c) = to_system_char A c.
Proof.
  destruct (decide (c ∈ ALL_DIGITS)) as [Hd|Hd].
  - unfold ALL_DIGITS, WESTERN_DIGITS, ARABIC_INDIC_DIGITS,
      EASTERN_ARABIC_DIGITS in Hd.
    cbn [app] in Hd. elem_cases Hd; destruct A, B; vm_compute; reflexivity.
  - by rewrite !(to_system_char_other _ c).
Qed.

Lemma to_system_char_no_foreign T S c :
  S ≠ T → to_system_char T c ∉ digits_of S.
Proof.
  intros Hne. destruct (decide (c ∈ ALL_DIGITS)) as [Hd|Hd].
  - unfold ALL_DIGITS, WESTERN_DIGITS, ARABIC_INDIC_DIGITS,
      EASTERN_ARABIC_DIGITS in Hd.
    cbn [app] in Hd. elem_cases Hd; destruct T, S; try done;
      apply (bool_decide_unpack _); vm_compute; exact I.
  - rewrite to_system_char_other by done. by apply not_digit_all.
Qed.

Lemma to_system_char_native T c :
  (∀ S, S ≠ T → c ∉ digits_of S) → to_system_char T c = c.
Proof.
  intros Hc. destruct (decide (c ∈ ALL_DIGITS)) as [Hd|Hd].
  - unfold ALL_DIGITS in Hd. rewrite !elem_of_app in Hd.
    destruct T.
    + destruct Hd as [Hd|[Hd|Hd]];
        [|by apply (Hc ArabicIndic) in Hd|by apply (Hc EasternArabic) in Hd].
      unfold WESTERN_DIGITS in Hd. elem_cases Hd; vm_compute; reflexivity.
    + destruct Hd as [Hd|[Hd|Hd]];
        [by apply (Hc Western) in Hd| |by apply (Hc EasternArabic) in Hd].
      unfold ARABIC_INDIC_DIGITS in Hd. elem_cases Hd; vm_compute; reflexivity.
    + destruct Hd as [Hd|[Hd|Hd]];
        [by apply (Hc Western) in Hd|by apply (Hc ArabicIndic) in Hd|].
      unfold EASTERN_ARABIC_DIGITS in Hd.
      elem_cases Hd; vm_compute; reflexivity.
  - by apply to_system_char_other.
Qed.

(** X1: transcoding twice is transcoding to the last target: for all
    systems A and B and every text, converting to B and then to A gives the
    same text as converting to A directly. *)
Theorem to_system_last_target_wins (A B : DigitSystem) (t : str) :
  to_system A (to_system B t) = to_system A t.
Proof.
  rewrite !to_system_fmap, <- list_fmap_compose.
  apply list_fmap_ext. intros i c _. apply to_system_char_last.
Qed.

(** X2: a text is left unchanged by the transcoder to T exactly when it
    contains no digit of another system; and the output of the transcoder
    never contains a digit of another system. *)
Theorem to_system_fixed_iff_no_foreign_digit (T : DigitSystem) (t : str) :
  (∀ S c, S ≠ T → c ∈ to_system T t → c ∉ digits_of S)
  ∧ (to_system T t = t ↔ ∀ S c, S ≠ T → c ∈ t → c ∉ digits_of S).
Proof.
  assert (∀ S c, S ≠ T → c ∈ to_system T t → c ∉ digits_of S) as Hout.
  { intros S c Hne. rewrite to_system_fmap.
    intros (c0 & -> & _)%list_elem_of_fmap.
    by apply to_system_char_no_foreign. }
  split; [exact Hout|]. split.
  - intros Hfix S c Hne Hin. rewrite <- Hfix in Hin. by eapply Hout.
  - intros Hclean. rewrite to_system_fmap.
    rewrite <- (list_fmap_id t) at 2. apply list_fmap_ext.
    intros i c Hi. cbn. apply to_system_char_native.
    intros S Hne. eapply Hclean; [done|]. by eapply list_elem_of_lookup_2.
Qed.

Lemma to_system_fixed_iff_no_foreign_digit_witness :
  to_system Western [97%N; 53%N] = [97%N; 53%N].
Proof.
  apply (to_system_fixed_iff_no_foreign_digit Western [97%N; 53%N]).
  intros S c Hne Hc.
  elem_cases Hc; destruct S; try done;
    apply (bool_decide_unpack _); vm_compute; exact I.
Defined.

(** X3: transcoding keeps digit values: the k-th glyph of any system is
    sent to the k-th glyph of the target system. *)
Theorem to_system_keeps_digit_value (S T : DigitSystem) (k : nat) (d : char) :
  digits_of S !! k = Some d →
  ∃ d', digits_of T !! k = Some d' ∧ to_system T [d] = [d'].
Proof.
  intros Hk.
  assert (k < 10)%nat as Hlt.
  { apply lookup_lt_Some in Hk. by destruct S. }
  do 10 (destruct k as [|k]; [destruct S; injection Hk as <-;
    destruct T; eexists; (split; [reflexivity|vm_compute; reflexivity])|]).
  lia.
Qed.

Lemma to_system_keeps_digit_value_witness :
  ∃ d', digits_of EasternArabic !! 7%nat = Some d'
        ∧ to_system EasternArabic [55%N] = [d'].
Proof. apply (to_system_keeps_digit_value Western). reflexivity. Defined.

(** X4: the transcoders work character by character: they keep the length
    and the transcoding of a concatenation is the concatenation of the
    transcodings, so a text can be converted in pieces. *)
Theorem to_system_app (T : DigitSystem) (a b : str) :
  to_system T (a ++ b) = to_system T a ++ to_system T b
  ∧ length (to_system T a) = length a.
Proof.
  split; [|apply to_system_length].
  rewrite !to_system_fmap. apply fmap_app.
Qed.

(** ** Extraction *)

Lemma western_digit_spec c : western_digit c = true ↔ c ∈ WESTERN_DIGITS.
Proof.
  unfold western_digit. rewrite andb_true_iff, !bool_decide_eq_true. split.
  - intros [Hlo Hhi]. unfold WESTERN_DIGITS.
    assert (c = 48 ∨ c = 49 ∨ c = 50 ∨ c = 51 ∨ c = 52 ∨ c = 53 ∨ c = 54
            ∨ c = 55 ∨ c = 56 ∨ c = 57)%N as Hc by lia.
    apply (bool_decide_unpack _).
    repeat (destruct Hc as [->|Hc]; [vm_compute; exact I|]). subst c.
    vm_compute. exact I.
  - intros Hc. unfold WESTERN_DIGITS in Hc. elem_cases Hc; lia.
Qed.

Lemma any_digit_spec c : any_digit c = true ↔ c ∈ ALL_DIGITS.
Proof.
  split.
  - unfold any_digit, arabic_digit, eastern_digit, western_digit.
    rewrite !orb_true_iff, !andb_true_iff, !bool_decide_eq_true.
    intros [[[Hlo Hhi]|[Hlo Hhi]]|[Hlo Hhi]].
    + assert (c = 1632 ∨ c = 1633 ∨ c = 1634 ∨ c = 1635 ∨ c = 1636
              ∨ c = 1637 ∨ c = 1638 ∨ c = 1639 ∨ c = 1640 ∨ c = 1641)%N
        as Hc by lia.
      apply (bool_decide_unpack _).
      repeat (destruct Hc as [->|Hc]; [vm_compute; exact I|]). subst c.
      vm_compute. exact I.
    + assert (c = 1776 ∨ c = 1777 ∨ c = 1778 ∨ c = 1779 ∨ c = 1780
              ∨ c = 1781 ∨ c = 1782 ∨ c = 1783 ∨ c = 1784 ∨ c = 1785)%N
        as Hc by lia.
      apply (bool_decide_unpack _).
      repeat (destruct Hc as [->|Hc]; [vm_compute; exact I|]). subst c.
      vm_compute. exact I.
    + assert (c = 48 ∨ c = 49 ∨ c = 50 ∨ c = 51 ∨ c = 52 ∨ c = 53 ∨ c = 54
              ∨ c = 55 ∨ c = 56 ∨ c = 57)%N as Hc by lia.
      apply (bool_decide_unpack _).
      repeat (destruct Hc as [->|Hc]; [vm_compute; exact I|]). subst c.
      vm_compute. exact I.
  - intros Hc. unfold ALL_DIGITS, WESTERN_DIGITS, ARABIC_INDIC_DIGITS,
      EASTERN_ARABIC_DIGITS in Hc.
    cbn [app] in Hc. elem_cases Hc; vm_compute; reflexivity.
Qed.

(** After conversion, the Western class sees what the any-digit class saw. *)
Lemma western_digit_to_western c :
  western_digit (to_system_char Western c) = any_digit c.
Proof.
  destruct (decide (c ∈ ALL_DIGITS)) as [Hd|Hd].
  - unfold ALL_DIGITS, WESTERN_DIGITS, ARABIC_INDIC_DIGITS,
      EASTERN_ARABIC_DIGITS in Hd.
    cbn [app] in Hd. elem_cases Hd; vm_compute; reflexivity.
  - rewrite to_system_char_other by done.
    assert (any_digit c = false) as Hany.
    { apply not_true_is_false. by rewrite any_digit_spec. }
    rewrite Hany. unfold any_digit in Hany.
    by apply orb_false_iff in Hany as [_ ?].
Qed.

Lemma flush_fmap (f : char → char) (cur : str) :
  flush (f <$> cur) = (λ run : str, f <$> run) <$> flush cur.
Proof. by destruct cur. Qed.

Lemma findall_from_class cur s :
  findall_from cur s = findall_class_from western_digit cur s.
Proof. revert cur. induction s as [|c s IH]; intros cur; cbn; [done|].
  by rewrite !IH. Qed.

Lemma findall_class_fmap (f : char → char) class (s : str) : ∀ cur : str,
  findall_class_from class (f <$> cur) (f <$> s)
  = (λ run : str, f <$> run) <$> findall_class_from (λ c, class (f c)) cur s.
Proof.
  induction s as [|c s IH]; intros cur; cbn.
  - apply flush_fmap.
  - destruct (class (f c)).
    + rewrite <- IH. by rewrite fmap_app.
    + rewrite fmap_app, flush_fmap. f_equal. apply (IH []).
Qed.

Lemma findall_class_ext class1 class2 s :
  (∀ c, class1 c = class2 c) →
  ∀ cur, findall_class_from class1 cur s = findall_class_from class2 cur s.
Proof.
  intros Hext. induction s as [|c s IH]; intros cur; cbn; [done|].
  by rewrite Hext, !IH.
Qed.

Lemma findall_class_split class c a b : ∀ cur,
  class c = false →
  findall_class_from class cur (a ++ c :: b)
  = findall_class_from class cur a ++ findall_class_from class [] b.
Proof.
  induction a as [|x a IH]; intros cur Hc; cbn.
  - by rewrite Hc.
  - destruct (class x); [by apply IH|].
    rewrite IH by done. by rewrite (assoc_L (++)).
Qed.

Lemma findall_class_all class s : ∀ cur,
  Forall (λ c, class c = true) s →
  findall_class_from class cur s = flush (cur ++ s).
Proof.
  induction s as [|c s IH]; intros cur Hall; cbn.
  - by rewrite app_nil_r.
  - apply Forall_cons in Hall as [-> Hall]. rewrite IH by done.
    by rewrite <- (assoc_L (++)).
Qed.

Lemma findall_class_runs class s : ∀ cur run,
  Forall (λ c, class c = true) cur →
  run ∈ findall_class_from class cur s →
  run ≠ [] ∧ Forall (λ c, class c = true) run.
Proof.
  assert (∀ cur run, Forall (λ c, class c = true) cur → run ∈ flush cur →
            run ≠ [] ∧ Forall (λ c, class c = true) run) as Hflush.
  { intros [|c cur] run Hcur Hin; cbn in Hin.
    - by apply elem_of_nil in Hin.
    - apply list_elem_of_singleton in Hin as ->. done. }
  induction s as [|c s IH]; intros cur run Hcur Hin; cbn in Hin.
  - by apply Hflush in Hin.
  - destruct (class c) eqn:Hc.
    + eapply IH; [|exact Hin]. apply Forall_app. split; [done|].
      by apply Forall_singleton.
    + apply elem_of_app in Hin as [Hin|Hin]; [by apply Hflush in Hin|].
      eapply IH; [|exact Hin]. constructor.
Qed.

Lemma findall_class_nil_iff class s :
  findall_class_from class [] s = [] ↔ Forall (λ c, class c = false) s.
Proof.
  split.
  - induction s as [|c s IH]; intros Hnil; [constructor|]. cbn in Hnil.
    destruct (class c) eqn:Hc.
    + exfalso. clear IH. revert Hnil. generalize ([] ++ [c]).
      assert (∀ cur : str, cur ≠ [] → findall_class_from class cur s ≠ [])
        as Hne.
      { induction s as [|x s IHs]; intros cur Hcur; cbn.
        - by destruct cur.
        - destruct (class x).
          + apply IHs. by destruct cur.
          + by destruct cur. }
      intros cur. cbn. intros Hnil. by apply (Hne [c]) in Hnil.
    + constructor; [done|]. by apply IH.
  - induction 1 as [|c s Hc Hs IH]; cbn; [done|]. by rewrite Hc.
Qed.

Lemma extract_numbers_scan (t : str) :
  extract_numbers t
  = (λ run, int_of_digits (to_western_numerals run))
      <$> findall_class any_digit t.
Proof.
  unfold extract_numbers, findall_digits, findall_class.
  rewrite findall_from_class.
  change to_western_numerals with (to_system Western).
  rewrite to_system_fmap.
  change (@nil N) with (to_system_char Western <$> @nil N) at 1.
  rewrite findall_class_fmap, <- list_fmap_compose.
  rewrite (findall_class_ext _ any_digit) by apply western_digit_to_western.
  apply list_fmap_ext. intros i run _. cbn.
  by rewrite <- (to_system_fmap Western).
Qed.

(** X5: extraction is a scan of the original text with the any-digit class
    of [ANY_DIGIT_PATTERN]: the numbers are the maximal runs of digits of
    any of the three systems, each run converted to Western digits and read
    in base 10. *)
Theorem extract_numbers_any_digit_runs (t : str) :
  extract_numbers t
  = (λ run, int_of_digits (to_western_numerals run))
      <$> findall_class any_digit t.
Proof. apply extract_numbers_scan. Qed.

(** X6: no number is extracted exactly when the text contains no digit of
    any of the three systems (the empty text included). *)
Theorem extract_numbers_nil_iff (t : str) :
  extract_numbers t = [] ↔ ∀ c, c ∈ t → c ∉ ALL_DIGITS.
Proof.
  rewrite extract_numbers_scan. unfold findall_class.
  assert (∀ (f : str → Z) (l : list str), f <$> l = [] ↔ l = []) as Hnil.
  { intros f l. split; [apply fmap_nil_inv|by intros ->]. }
  rewrite Hnil, findall_class_nil_iff, Forall_forall.
  split; intros H c Hc; specialize (H c Hc).
  - rewrite <- any_digit_spec. by rewrite H.
  - apply not_true_is_false. by rewrite any_digit_spec.
Qed.

Lemma extract_numbers_nil_iff_witness :
  extract_numbers [1604%N; 1575%N; 32%N] = [].
Proof.
  apply extract_numbers_nil_iff. intros c Hc.
  elem_cases Hc; apply (bool_decide_unpack _); vm_compute; exact I.
Defined.

Lemma int_of_digits_nonneg run : ∀ acc,
  Forall (λ c, western_digit c = true) run → 0 ≤ acc →
  0 ≤ foldl (λ acc c, 10 * acc + (Z.of_N c - 48)) acc run.
Proof.
  induction run as [|c run IH]; intros acc Hrun Hacc; cbn; [done|].
  apply Forall_cons in Hrun as [Hc Hrun]. apply IH; [done|].
  unfold western_digit in Hc.
  apply andb_true_iff in Hc as [?%bool_decide_eq_true _]. lia.
Qed.

(** X7: every extracted number is non-negative: a sign before a digit run
    is not read. *)
Theorem extract_numbers_nonneg (t : str) (n : Z) :
  n ∈ extract_numbers t → 0 ≤ n.
Proof.
  unfold extract_numbers, findall_digits. rewrite findall_from_class.
  intros (run & -> & Hrun)%list_elem_of_fmap.
  apply findall_class_runs in Hrun as [_ Hrun]; [|constructor].
  by apply int_of_digits_nonneg.
Qed.

Lemma extract_numbers_nonneg_witness : 0 ≤ 15.
Proof.
  apply (extract_numbers_nonneg (lit "-٢٣ و -15")).
  apply (bool_decide_unpack _). vm_compute. exact I.
Defined.

(** X8: digit runs are not merged across a character that is no digit: the
    numbers of a text cut at such a character are those of the left part
    followed by those of the right part. *)
Theorem extract_numbers_split (a b : str) (c : char) :
  c ∉ ALL_DIGITS →
  extract_numbers (a ++ [c] ++ b) = extract_numbers a ++ extract_numbers b.
Proof.
  intros Hc. rewrite !extract_numbers_scan. unfold findall_class.
  cbn [app]. rewrite findall_class_split, fmap_app; [done|].
  apply not_true_is_false. by rewrite any_digit_spec.
Qed.

Lemma extract_numbers_split_witness :
  extract_numbers (lit "٢٣" ++ [32%N] ++ lit "15")
  = extract_numbers (lit "٢٣") ++ extract_numbers (lit "15").
Proof.
  apply extract_numbers_split. apply (bool_decide_unpack _). vm_compute.
  exact I.
Defined.

Lemma digit_index_None S c : c ∉ digits_of S → digit_index S c = None.
Proof.
  intros Hc. unfold digit_index.
  destruct (list_find _ _) as [[i x]|] eqn:Hfind; [|done].
  apply list_find_Some in Hfind as (Hi & -> & _).
  exfalso. apply Hc. by eapply list_elem_of_lookup_2.
Qed.

Lemma digit_value_to_western c v :
  digit_value c = Some v →
  western_digit (to_system_char Western c) = true
  ∧ Z.of_N (to_system_char Western c) - 48 = v.
Proof.
  destruct (decide (c ∈ ALL_DIGITS)) as [Hd|Hd].
  - unfold ALL_DIGITS, WESTERN_DIGITS, ARABIC_INDIC_DIGITS,
      EASTERN_ARABIC_DIGITS in Hd.
    cbn [app] in Hd. elem_cases Hd; vm_compute; intros [= <-]; done.
  - pose proof (proj2 (not_digit_all c) Hd) as Hall.
    unfold digit_value. by rewrite !digit_index_None.
Qed.

Lemma int_of_digits_decimal t vs : ∀ acc,
  Forall2 (λ c v, digit_value c = Some v) t vs →
  foldl (λ acc c, 10 * acc + (Z.of_N c - 48)) acc (to_system_char Western <$> t)
  = foldl (λ acc v, 10 * acc + v) acc vs.
Proof.
  intros acc Hvs. revert acc.
  induction Hvs as [|c v t vs Hc _ IH]; intros acc;
    cbn [foldl fmap list_fmap]; [done|].
  apply digit_value_to_western in Hc as [_ ->]. apply IH.
Qed.

(** With the length check left out, a non-empty text made only of digits
    is read as one number, the base-10 value of its digit values. *)
Lemma extract_numbers_digit_run (t : str) (vs : list Z) :
  t ≠ [] → mapM digit_value t = Some vs →
  extract_numbers t = [decimal vs].
Proof.
  intros Hne Hvs. apply mapM_Some in Hvs.
  unfold extract_numbers, findall_digits. rewrite findall_from_class.
  change to_western_numerals with (to_system Western).
  rewrite to_system_fmap, findall_class_all.
  - destruct t as [|c t]; [done|]. cbn [app fmap list_fmap flush].
    f_equal. apply (int_of_digits_decimal (c :: t) vs 0 Hvs).
  - apply Forall_fmap. eapply Forall2_Forall_l; [exact Hvs|].
    apply Forall_true. intros v c Hc.
    apply digit_value_to_western in Hc as [Hc _]. exact Hc.
Qed.

Lemma findall_digits_to_western (t : str) :
  findall_digits (to_western_numerals t)
  = (λ run : str, to_western_numerals run) <$> findall_class any_digit t.
Proof.
  unfold findall_digits, findall_class. rewrite findall_from_class.
  change to_western_numerals with (to_system Western).
  rewrite to_system_fmap.
  change (@nil N) with (to_system_char Western <$> @nil N) at 1.
  rewrite findall_class_fmap.
  rewrite (findall_class_ext _ any_digit) by apply western_digit_to_western.
  apply list_fmap_ext. intros i run _. by rewrite to_system_fmap.
Qed.

Lemma findall_class_run_length class s : ∀ cur run,
  run ∈ findall_class_from class cur s →
  (length run ≤ length cur + length s)%nat.
Proof.
  assert (∀ cur run : str, run ∈ flush cur → length run = length cur)
    as Hflush.
  { intros [|c cur] run Hin; cbn in Hin.
    - by apply elem_of_nil in Hin.
    - by apply list_elem_of_singleton in Hin as ->. }
  induction s as [|c s IH]; intros cur run Hin; cbn in Hin.
  - apply Hflush in Hin. lia.
  - destruct (class c).
    + apply IH in Hin. rewrite length_app in Hin. cbn in *. lia.
    + apply elem_of_app in Hin as [Hin|Hin].
      * apply Hflush in Hin. lia.
      * apply IH in Hin. cbn in *. lia.
Qed.

Lemma int_limited_cases lim m :
  ((lim = 0 ∨ length m ≤ lim)%nat ∧ int_limited lim m = Ok (int_of_digits m))
  ∨ ((lim ≠ 0 ∧ lim < length m)%nat ∧ int_limited lim m = Raise ValueError).
Proof.
  unfold int_limited.
  destruct (decide (lim ≠ 0)%nat) as [Hlim|Hlim];
    destruct (decide (lim < length m)%nat) as [Hlen|Hlen].
  - right. split; [done|]. by rewrite !bool_decide_eq_true_2.
  - left. split; [lia|].
    by rewrite (bool_decide_eq_false_2 (lim < length m)%nat), andb_false_r.
  - left. split; [lia|]. by rewrite (bool_decide_eq_false_2 (lim ≠ 0)%nat).
  - left. split; [lia|]. by rewrite (bool_decide_eq_false_2 (lim ≠ 0)%nat).
Qed.

Lemma ints_limited_ok lim runs :
  Forall (λ m : str, lim = 0 ∨ length m ≤ lim)%nat runs →
  ints_limited lim runs = Ok (int_of_digits <$> runs).
Proof.
  induction 1 as [|m runs Hm _ IH]; [done|]. cbn [ints_limited].
  destruct (int_limited_cases lim m) as [[_ ->]|[Hlong _]]; [|lia].
  by rewrite IH.
Qed.

Lemma ints_limited_raise lim runs :
  Exists (λ m : str, lim ≠ 0 ∧ lim < length m)%nat runs →
  ints_limited lim runs = Raise ValueError.
Proof.
  induction runs as [|m runs IH]; intros Hex; [by apply Exists_nil in Hex|].
  cbn [ints_limited].
  destruct (int_limited_cases lim m) as [[Hshort ->]|[_ ->]]; [|done].
  apply Exists_cons in Hex as [Hm|Hex]; [lia|]. by rewrite IH.
Qed.

Lemma extract_numbers_limited_ok lim t :
  Forall (λ run : str, lim = 0 ∨ length run ≤ lim)%nat
    (findall_class any_digit t) →
  extract_numbers_limited lim t = Ok (extract_numbers t).
Proof.
  intros Hruns. unfold extract_numbers_limited, extract_numbers.
  apply ints_limited_ok. rewrite findall_digits_to_western.
  apply Forall_fmap. eapply Forall_impl; [exact Hruns|].
  intros run Hrun. cbn. change to_western_numerals with (to_system Western).
  by rewrite to_system_length.
Qed.

Lemma extract_numbers_limited_raise lim t :
  Exists (λ run : str, lim ≠ 0 ∧ lim < length run)%nat
    (findall_class any_digit t) →
  extract_numbers_limited lim t = Raise ValueError.
Proof.
  intros Hruns. unfold extract_numbers_limited.
  apply ints_limited_raise. rewrite findall_digits_to_western.
  apply Exists_fmap. eapply Exists_impl; [exact Hruns|].
  intros run Hrun. cbn. change to_western_numerals with (to_system Western).
  by rewrite to_system_length.
Qed.

(** X9: under a digit limit [lim] of the interpreter (0 for none), a
    non-empty text made only of digits, of one system or mixed, is one run:
    when the limit is off or the text has at most [lim] characters the
    result is the one number with the base-10 value of its digit values;
    when the text is longer than the limit the call raises ValueError. *)
Theorem extract_numbers_limited_digit_run (lim : nat) (t : str) (vs : list Z) :
  t ≠ [] → mapM digit_value t = Some vs →
  ((lim = 0 ∨ length t ≤ lim)%nat →
     extract_numbers_limited lim t = Ok [decimal vs])
  ∧ ((lim ≠ 0 ∧ lim < length t)%nat →
       extract_numbers_limited lim t = Raise ValueError).
Proof.
  intros Hne Hvs.
  assert (findall_class any_digit t = [t]) as Hrun.
  { unfold findall_class. rewrite findall_class_all.
    - by destruct t.
    - apply mapM_Some in Hvs. eapply Forall2_Forall_l; [exact Hvs|].
      apply Forall_true. intros v c Hc.
      apply digit_value_to_western in Hc as [Hc _].
      by rewrite western_digit_to_western in Hc. }
  split; intros Hlim.
  - rewrite extract_numbers_limited_ok by (rewrite Hrun; by constructor).
    by rewrite (extract_numbers_digit_run t vs).
  - apply extract_numbers_limited_raise. rewrite Hrun. by constructor.
Qed.

Lemma extract_numbers_limited_digit_run_witness :
  extract_numbers_limited DEFAULT_MAX_STR_DIGITS [1632%N; 49%N; 1778%N; 1635%N]
  = Ok [123]
  ∧ extract_numbers_limited 3 [1632%N; 49%N; 1778%N; 1635%N]
    = Raise ValueError.
Proof.
  destruct (extract_numbers_limited_digit_run DEFAULT_MAX_STR_DIGITS
              [1632%N; 49%N; 1778%N; 1635%N] [0; 1; 2; 3])
    as [Hok _]; [discriminate|reflexivity|].
  destruct (extract_numbers_limited_digit_run 3
              [1632%N; 49%N; 1778%N; 1635%N] [0; 1; 2; 3])
    as [_ Hraise]; [discriminate|reflexivity|].
  split.
  - apply Hok. right. apply (bool_decide_unpack _). vm_compute. exact I.
  - apply Hraise. split; [discriminate|].
    apply (bool_decide_unpack _). vm_compute. exact I.
Defined.

(** X21: the length check of [int] is the only difference between the call
    under a digit limit [lim] and the numbers extracted without the check:
    when every digit run of the text has at most [lim] characters, or the
    limit is off, or the whole text has at most [lim] characters, the call
    returns exactly those numbers; when some digit run is longer than the
    limit, the call raises ValueError. *)
Theorem extract_numbers_limited_agrees (lim : nat) (t : str) :
  (Forall (λ run : str, lim = 0 ∨ length run ≤ lim)%nat
     (findall_class any_digit t) →
   extract_numbers_limited lim t = Ok (extract_numbers t))
  ∧ ((lim = 0 ∨ length t ≤ lim)%nat →
     extract_numbers_limited lim t = Ok (extract_numbers t))
  ∧ (Exists (λ run : str, lim ≠ 0 ∧ lim < length run)%nat
       (findall_class any_digit t) →
     extract_numbers_limited lim t = Raise ValueError).
Proof.
  split; [apply extract_numbers_limited_ok|].
  split; [|apply extract_numbers_limited_raise].
  intros Hlim. apply extract_numbers_limited_ok, Forall_forall.
  intros run Hrun. apply findall_class_run_length in Hrun. cbn in Hrun. lia.
Qed.

Lemma extract_numbers_limited_agrees_witness :
  extract_numbers_limited DEFAULT_MAX_STR_DIGITS
    [1633%N; 1634%N; 32%N; 49%N; 53%N]
  = Ok (extract_numbers [1633%N; 1634%N; 32%N; 49%N; 53%N])
  ∧ extract_numbers_limited 1 [1633%N; 1634%N; 32%N; 49%N; 53%N]
    = Raise ValueError.
Proof.
  destruct (extract_numbers_limited_agrees DEFAULT_MAX_STR_DIGITS
              [1633%N; 1634%N; 32%N; 49%N; 53%N]) as (_ & Hok & _).
  destruct (extract_numbers_limited_agrees 1
              [1633%N; 1634%N; 32%N; 49%N; 53%N]) as (_ & _ & Hraise).
  split.
  - apply Hok. right. apply (bool_decide_unpack _). vm_compute. exact I.
  - apply Hraise. apply (bool_decide_unpack _). vm_compute. exact I.
Defined.

(** ** Encoding *)

Lemma forallb_seqZ (P : Z → bool) lo len n :
  forallb P (seqZ lo len) = true → lo ≤ n < lo + len → P n = true.
Proof.
  intros Hall Hn. rewrite forallb_forall in Hall. apply Hall.
  apply list_elem_of_In, elem_of_seqZ. lia.
Qed.

(** X10: the under-1000 helper returns a non-empty text for every n in
    [1, 999] and the empty text for 0; from 1000 on the hundreds lookup is out
    of range and it raises IndexError. *)
Theorem number_under_1000_domain (n : Z) :
  (1 ≤ n ≤ 999 → ∃ w, _number_under_1000 n = Ok w ∧ w ≠ [])
  ∧ (n = 0 → _number_under_1000 n = Ok [])
  ∧ (1000 ≤ n → _number_under_1000 n = Raise IndexError).
Proof.
  split; [|split].
  - intros Hn.
    pose proof (forallb_seqZ
      (λ n, match _number_under_1000 n with Ok (_ :: _) => true | _ => false end)
      1 999 n) as Hcheck.
    cbn beta in Hcheck.
    destruct (_number_under_1000 n) as [[|c w]| |];
      try (discriminate Hcheck; [vm_compute; reflexivity|lia]).
    by eexists.
  - by intros ->.
  - intros Hn. unfold _number_under_1000.
    rewrite (bool_decide_eq_false_2 (n = 0)) by lia.
    assert (append_if (bool_decide (n `div` 100 ≠ 0)) _HUNDREDS
              (n `div` 100) [] = Raise IndexError) as ->; [|done].
    unfold append_if. rewrite bool_decide_eq_true_2 by divmod.
    rewrite list_getitem_beyond; [done|]. cbn. divmod.
Qed.

Lemma number_under_1000_domain_witness :
  (∃ w, _number_under_1000 999 = Ok w ∧ w ≠ [])
  ∧ _number_under_1000 1000 = Raise IndexError.
Proof.
  split.
  - apply (number_under_1000_domain 999). lia.
  - apply (number_under_1000_domain 1000). lia.
Defined.

Lemma group_words_at_units g :
  group_words_at 0 g = _number_under_1000 g.
Proof.
  unfold group_words_at. rewrite bool_decide_eq_false_2 by lia.
  by destruct (_number_under_1000 g).
Qed.

Lemma number_to_words_units n :
  1 ≤ n ≤ 999 → number_to_words n = _number_under_1000 n.
Proof.
  intros Hn. destruct (number_under_1000_ok n) as [w Hw]; [lia|].
  rewrite Hw. eapply (number_to_words_more_fuel 2); [|done|unfold fuel_for; lia].
  rewrite number_to_words_fuel_pos by lia.
  assert (n `mod` 1000 = n ∧ n `div` 1000 = 0) as [Hmod Hdiv]
    by (split; divmod).
  rewrite (while_remaining_append _ _ _ _ w)
    by (rewrite ?Hmod, ?group_words_at_units; done || lia).
  by rewrite while_remaining_done by lia.
Qed.

(** X11: in the units tier the words stand alone: for n in [1, 999] the
    encoder returns the under-1000 words of n. *)
Theorem number_to_words_units_tier (n : Z) :
  1 ≤ n ≤ 999 → number_to_words n = _number_under_1000 n.
Proof. apply number_to_words_units. Qed.

Lemma number_to_words_units_tier_witness :
  number_to_words 999 = _number_under_1000 999.
Proof. apply number_to_words_units_tier. lia. Defined.

(** X12: sign handling: for every n > 0 the encoding of -n is the negative
    marker, a space and the encoding of n, and it fails when the encoding of
    n fails. *)
Theorem number_to_words_negative (n : Z) :
  0 < n →
  number_to_words (- n) = (w ← number_to_words n; mret (SALIB_SP ++ w)).
Proof.
  intros Hn. rewrite number_to_words_neg by lia. by rewrite Z.opp_involutive.
Qed.

Lemma number_to_words_negative_witness :
  number_to_words (- 2025)
  = (w ← number_to_words 2025; mret (SALIB_SP ++ w)).
Proof. apply (number_to_words_negative 2025). lia. Defined.

(** Every text of [0, 999] is found again, with its number, in the map from
    the texts of [0, 999] to their numbers. *)
Lemma number_to_words_small_index :
  (let index : gmap (list N) Z :=
     list_to_map ((λ n, (words_or_nil n, n)) <$> seqZ 0 1000) in
   forallb (λ n, bool_decide (index !! words_or_nil n = Some n))
     (seqZ 0 1000))
  = true.
Proof. vm_cast_no_check (eq_refl true). Qed.

Lemma number_to_words_small_inj a b :
  0 ≤ a ≤ 999 → 0 ≤ b ≤ 999 →
  number_to_words a = number_to_words b → a = b.
Proof.
  intros Ha Hb Heq.
  pose proof number_to_words_small_index as Hindex. cbv zeta in Hindex.
  pose proof (forallb_seqZ _ _ _ a Hindex) as Hia.
  pose proof (forallb_seqZ _ _ _ b Hindex) as Hib.
  cbn beta in Hia, Hib.
  apply (bool_decide_eq_true_1 _) in Hia; [|lia].
  apply (bool_decide_eq_true_1 _) in Hib; [|lia].
  assert (words_or_nil a = words_or_nil b) as Hw
    by (unfold words_or_nil; by rewrite Heq).
  rewrite Hw in Hia. congruence.
Qed.

Lemma number_to_words_small_unsigned n w :
  0 ≤ n ≤ 999 → number_to_words n = Ok w → ¬ SALIB_SP `prefix_of` w.
Proof.
  intros Hn Hw.
  pose proof (forallb_seqZ
    (λ n, match number_to_words n with
          | Ok w => negb (bool_decide (SALIB_SP `prefix_of` w))
          | _ => false
          end) 0 1000 n) as Hcheck.
  cbn beta in Hcheck. rewrite Hw in Hcheck.
  apply negb_true_iff, bool_decide_eq_false in Hcheck;
    [done|vm_compute; reflexivity|lia].
Qed.

Lemma number_to_words_small_neg n :
  -999 ≤ n < 0 →
  ∃ w, number_to_words (- n) = Ok w ∧ number_to_words n = Ok (SALIB_SP ++ w).
Proof.
  intros Hn. destruct (number_to_words_ok (- n)) as [w Hw]; [lia|].
  exists w. split; [done|]. rewrite number_to_words_neg by lia.
  by rewrite Hw.
Qed.

(** X13: distinct integers in [-999, 999] are encoded by distinct texts. *)
Theorem number_to_words_injective_small (a b : Z) :
  -999 ≤ a ≤ 999 → -999 ≤ b ≤ 999 →
  number_to_words a = number_to_words b → a = b.
Proof.
  intros Ha Hb Heq.
  destruct (decide (a < 0)) as [Hna|Hpa]; destruct (decide (b < 0)) as [Hnb|Hpb].
  - destruct (number_to_words_small_neg a) as (wa & Hwa & Ha'); [lia|].
    destruct (number_to_words_small_neg b) as (wb & Hwb & Hb'); [lia|].
    rewrite Ha', Hb' in Heq.
    assert (wa = wb) as <-.
    { apply (app_inv_head SALIB_SP). congruence. }
    assert (- a = - b); [|lia].
    apply number_to_words_small_inj; [lia|lia|congruence].
  - exfalso.
    destruct (number_to_words_small_neg a) as (wa & Hwa & Ha'); [lia|].
    rewrite Ha' in Heq.
    eapply (number_to_words_small_unsigned b); [lia|by symmetry|].
    by exists wa.
  - exfalso.
    destruct (number_to_words_small_neg b) as (wb & Hwb & Hb'); [lia|].
    rewrite Hb' in Heq.
    eapply (number_to_words_small_unsigned a); [lia|exact Heq|].
    by exists wb.
  - apply number_to_words_small_inj; [lia|lia|done].
Qed.

Lemma number_to_words_injective_small_witness : 3 + 4 = 7.
Proof.
  apply number_to_words_injective_small; [lia|lia|reflexivity].
Defined.

Lemma while_remaining_acc fuel : ∀ r k groups,
  while_remaining fuel r k groups
  = (gs ← while_remaining fuel r k []; mret (groups ++ gs)).
Proof.
  induction fuel as [|fuel IH]; intros r k groups;
    (destruct (decide (0 < r)) as [Hr|Hr];
       [|rewrite !while_remaining_done by lia; cbn; by rewrite app_nil_r]).
  { cbn. by rewrite bool_decide_eq_true_2 by done. }
  rewrite !while_remaining_step by done.
  case_bool_decide as Hgroup.
  - destruct (group_words_at k (r `mod` 1000)) as [w| |]; [|done|done].
    cbn [mbind result_mbind result_bind mret result_mret app].
    rewrite (IH _ _ (groups ++ [w])), (IH _ _ [w]).
    destruct (while_remaining fuel _ _ []) as [gs| |]; [|done|done].
    cbn. by rewrite <- (assoc_L (++)).
  - cbn [mbind result_mbind result_bind mret result_mret].
    apply IH.
Qed.

Lemma while_remaining_nonempty fuel : ∀ r k gs,
  0 < r → while_remaining fuel r k [] = Ok gs → gs ≠ [].
Proof.
  induction fuel as [|fuel IH]; intros r k gs Hr Hrun.
  { cbn in Hrun. by rewrite bool_decide_eq_true_2 in Hrun by done. }
  rewrite while_remaining_step in Hrun by done.
  case_bool_decide as Hgroup.
  - destruct (group_words_at k (r `mod` 1000)) as [w| |]; [|done|done].
    cbn [mbind result_mbind result_bind mret result_mret app] in Hrun.
    rewrite while_remaining_acc in Hrun.
    destruct (while_remaining fuel _ _ []) as [gs'| |]; [|done|done].
    cbn in Hrun. by injection Hrun as <-.
  - cbn [mbind result_mbind result_bind mret result_mret] in Hrun.
    eapply IH; [|exact Hrun]. divmod.
Qed.

Lemma join_snoc sep (l : list str) x :
  l ≠ [] → join sep (l ++ [x]) = join sep l ++ sep ++ x.
Proof.
  induction l as [|p l IH]; intros Hne; [done|].
  destruct l as [|q l]; [done|].
  change (join sep ((p :: q :: l) ++ [x]))
    with (p ++ sep ++ join sep ((q :: l) ++ [x])).
  rewrite IH by done.
  change (join sep (p :: q :: l)) with (p ++ sep ++ join sep (q :: l)).
  by rewrite <- !(assoc_L (++)).
Qed.

Lemma join_app sep (l1 l2 : list str) :
  l1 ≠ [] → l2 ≠ [] →
  join sep (l1 ++ l2) = join sep l1 ++ sep ++ join sep l2.
Proof.
  intros Hl1 Hl2. induction l1 as [|p l1 IH]; [done|].
  destruct l1 as [|q l1].
  - destruct l2; done.
  - change (join sep ((p :: q :: l1) ++ l2))
      with (p ++ sep ++ join sep ((q :: l1) ++ l2)).
    rewrite IH by done.
    change (join sep (p :: q :: l1)) with (p ++ sep ++ join sep (q :: l1)).
    by rewrite <- !(assoc_L (++)).
Qed.

(** The loop on hi * 1000^t + lo first does what it does on lo, then goes
    on with hi at tier t. *)
Lemma while_remaining_split (t : nat) : ∀ fuel lo hi k groups,
  0 ≤ lo < 1000 ^ Z.of_nat t → 0 < hi →
  while_remaining (t + fuel) (hi * 1000 ^ Z.of_nat t + lo) k groups
  = (gs ← while_remaining (t + fuel) lo k groups;
     while_remaining fuel hi (k + Z.of_nat t) gs).
Proof.
  induction t as [|t IH]; intros fuel lo hi k groups Hlo Hhi.
  { cbn in Hlo. assert (lo = 0) as -> by lia.
    change (Z.of_nat 0) with 0. rewrite Z.pow_0_r, Z.mul_1_r, !Z.add_0_r.
    cbn [Nat.add]. by rewrite (while_remaining_done _ 0) by lia. }
  rewrite Nat2Z.inj_succ, Z.pow_succ_r in * by lia.
  assert (0 < 1000 ^ Z.of_nat t) as Hpow by (apply Z.pow_pos_nonneg; lia).
  set (n := hi * (1000 * 1000 ^ Z.of_nat t) + lo).
  assert (0 < n) as Hn by (unfold n; nia).
  assert (n `mod` 1000 = lo `mod` 1000
          ∧ n `div` 1000 = hi * 1000 ^ Z.of_nat t + lo `div` 1000)
    as [Hmod Hdiv].
  { unfold n.
    replace (hi * (1000 * 1000 ^ Z.of_nat t) + lo)
      with (lo + hi * 1000 ^ Z.of_nat t * 1000) by lia.
    rewrite Z.mod_add, Z.div_add by lia. split; lia. }
  assert (0 ≤ lo `div` 1000 < 1000 ^ Z.of_nat t) as Hlo' by divmod.
  replace (k + Z.succ (Z.of_nat t)) with (k + 1 + Z.of_nat t) by lia.
  cbn [Nat.add]. rewrite while_remaining_step, Hmod, Hdiv by done.
  destruct (decide (0 < lo)) as [Hpos|Hzero].
  - rewrite (while_remaining_step _ lo) by done.
    destruct (if bool_decide (lo `mod` 1000 ≠ 0) then _ else _) as [gs| |];
      cbn [mbind result_mbind result_bind]; [|done|done].
    by apply IH.
  - assert (lo = 0) as -> by lia.
    rewrite (while_remaining_done _ 0) by lia.
    change (0 `mod` 1000) with 0. change (0 `div` 1000) with 0.
    rewrite bool_decide_eq_false_2 by (intros H; by apply H).
    cbn [mbind result_mbind result_bind mret result_mret].
    rewrite IH by lia. by rewrite while_remaining_done by lia.
Qed.

(** X14: lower groups are joined after the higher ones: for hi >= 1 and
    0 < lo < 1000^t with hi * 1000^t + lo below 10^15, the words of
    hi * 1000^t + lo are the words of hi * 1000^t, then the separator (a
    space and waw), then the words of lo. *)
Theorem number_to_words_split (t hi lo : Z) :
  0 ≤ t → 1 ≤ hi → 0 < lo < 1000 ^ t → hi * 1000 ^ t + lo < 10 ^ 15 →
  ∃ wh wl,
    number_to_words (hi * 1000 ^ t) = Ok wh
    ∧ number_to_words lo = Ok wl
    ∧ number_to_words (hi * 1000 ^ t + lo) = Ok (wh ++ SP_WA ++ wl).
Proof.
  intros Ht Hhi Hlo Hlt.
  rewrite <- (Z2Nat.id t) in * by done. set (tn := Z.to_nat t) in *.
  assert (0 < 1000 ^ Z.of_nat tn) as Hpow by (apply Z.pow_pos_nonneg; lia).
  set (n1 := hi * 1000 ^ Z.of_nat tn + lo).
  set (n2 := hi * 1000 ^ Z.of_nat tn).
  assert (0 < hi ≤ n2 ∧ n2 ≤ n1) as [Hhn2 Hn21] by (unfold n1, n2; nia).
  set (f := (Z.to_nat (Z.log2 n1) + 2)%nat).
  assert (n1 < 2 ^ Z.of_nat f) as Hf by (apply pos_fuel_enough; lia).
  assert (2 ^ Z.of_nat f ≤ 2 ^ Z.of_nat (tn + f)) as Hff
    by (apply Z.pow_le_mono_r; lia).
  destruct (while_remaining_ok (tn + f) lo 0 []) as [gl Hgl];
    [done|lia|rewrite Z.pow_0_r; lia|].
  destruct (while_remaining_ok f hi (Z.of_nat tn) []) as [gh Hgh];
    [lia|lia|fold n2; lia|].
  assert (gl ≠ []) as Hgl_ne
    by (eapply while_remaining_nonempty; [|done]; lia).
  assert (gh ≠ []) as Hgh_ne
    by (eapply while_remaining_nonempty; [|done]; lia).
  assert (∀ n, 0 < n ≤ n1 →
            number_to_words n
            = (groups ← while_remaining (tn + f) n 0 [];
               mret (join SP_WA (reverse groups)))) as Hrun.
  { intros n Hn. rewrite <- number_to_words_fuel_pos by lia.
    symmetry. apply number_to_words_fuel_enough.
    unfold fuel_for. rewrite Z.abs_eq by lia.
    pose proof (Z.log2_le_mono n n1). unfold f. lia. }
  exists (join SP_WA (reverse gh)), (join SP_WA (reverse gl)).
  split; [|split].
  - rewrite Hrun by lia. unfold n2.
    rewrite <- (Z.add_0_r (hi * _)), while_remaining_split by lia.
    rewrite (while_remaining_done _ 0) by lia.
    cbn [mbind result_mbind result_bind mret result_mret].
    rewrite Z.add_0_l. by rewrite Hgh.
  - rewrite Hrun by lia. by rewrite Hgl.
  - rewrite Hrun by lia. unfold n1.
    rewrite while_remaining_split, Hgl by lia.
    cbn [mbind result_mbind result_bind mret result_mret].
    rewrite Z.add_0_l, while_remaining_acc, Hgh.
    cbn [mbind result_mbind result_bind mret result_mret]. f_equal.
    rewrite reverse_app. apply join_app.
    + intros Hrev. apply Hgh_ne.
      by rewrite <- (reverse_involutive gh), Hrev.
    + intros Hrev. apply Hgl_ne.
      by rewrite <- (reverse_involutive gl), Hrev.
Qed.

Lemma number_to_words_split_witness :
  ∃ wh wl,
    number_to_words (12 * 1000 ^ 2) = Ok wh
    ∧ number_to_words 345678 = Ok wl
    ∧ number_to_words (12 * 1000 ^ 2 + 345678) = Ok (wh ++ SP_WA ++ wl).
Proof. apply number_to_words_split; lia. Defined.

(** X20: the order of the words below 1000: the hundreds word comes first
    and the rest follows after the separator; in a rest from 21 to 99 that
    is no multiple of ten the ones word comes before the tens word. *)
Theorem number_under_1000_order :
  (∀ h r, 1 ≤ h ≤ 9 → 1 ≤ r ≤ 99 →
     ∃ wh wr, list_getitem _HUNDREDS h = Ok wh
              ∧ _number_under_1000 r = Ok wr
              ∧ _number_under_1000 (100 * h + r) = Ok (wh ++ SP_WA ++ wr))
  ∧ (∀ tens ones, 2 ≤ tens ≤ 9 → 1 ≤ ones ≤ 9 →
       ∃ wo wt, list_getitem _ONES ones = Ok wo
                ∧ list_getitem _TENS tens = Ok wt
                ∧ _number_under_1000 (10 * tens + ones)
                  = Ok (wo ++ SP_WA ++ wt)).
Proof.
  split.
  - intros h r Hh Hr.
    pose proof (forallb_seqZ
      (λ n, match list_getitem _HUNDREDS (n `div` 100),
                  _number_under_1000 (n `mod` 100) with
            | Ok wh, Ok wr =>
              bool_decide (n `mod` 100 = 0)
              || bool_decide (_number_under_1000 n = Ok (wh ++ SP_WA ++ wr))
            | _, _ => false
            end) 100 900 (100 * h + r)) as Hcheck.
    cbn beta in Hcheck.
    assert ((100 * h + r) `div` 100 = h ∧ (100 * h + r) `mod` 100 = r)
      as [Hdiv Hmod] by (split; divmod).
    rewrite Hdiv, Hmod in Hcheck.
    destruct (list_getitem _HUNDREDS h) as [wh| |],
      (_number_under_1000 r) as [wr| |];
      try (discriminate Hcheck; [vm_compute; reflexivity|lia]).
    exists wh, wr. split; [done|]. split; [done|].
    rewrite bool_decide_eq_false_2 in Hcheck by lia.
    apply (bool_decide_eq_true_1 _).
    apply Hcheck; [vm_compute; reflexivity|lia].
  - intros tens ones Ht Ho.
    pose proof (forallb_seqZ
      (λ n, match list_getitem _ONES (n `mod` 10),
                  list_getitem _TENS (n `div` 10) with
            | Ok wo, Ok wt =>
              bool_decide (n `mod` 10 = 0)
              || bool_decide (_number_under_1000 n = Ok (wo ++ SP_WA ++ wt))
            | _, _ => false
            end) 20 80 (10 * tens + ones)) as Hcheck.
    cbn beta in Hcheck.
    assert ((10 * tens + ones) `div` 10 = tens
            ∧ (10 * tens + ones) `mod` 10 = ones)
      as [Hdiv Hmod] by (split; divmod).
    rewrite Hdiv, Hmod in Hcheck.
    destruct (list_getitem _ONES ones) as [wo| |],
      (list_getitem _TENS tens) as [wt| |];
      try (discriminate Hcheck; [vm_compute; reflexivity|lia]).
    exists wo, wt. split; [done|]. split; [done|].
    rewrite bool_decide_eq_false_2 in Hcheck by lia.
    apply (bool_decide_eq_true_1 _).
    apply Hcheck; [vm_compute; reflexivity|lia].
Qed.

Lemma number_under_1000_order_witness :
  (∃ wh wr, list_getitem _HUNDREDS 1 = Ok wh
            ∧ _number_under_1000 23 = Ok wr
            ∧ _number_under_1000 (100 * 1 + 23) = Ok (wh ++ SP_WA ++ wr))
  ∧ (∃ wo wt, list_getitem _ONES 3 = Ok wo
              ∧ list_getitem _TENS 2 = Ok wt
              ∧ _number_under_1000 (10 * 2 + 3) = Ok (wo ++ SP_WA ++ wt)).
Proof.
  destruct number_under_1000_order as [Hh Ht].
  split; [apply Hh; lia|apply Ht; lia].
Defined.

(** ** Decoding: trimming and splitting *)

Section strip_by.
Context (p : char → bool).

Lemma lstrip_by_all ws s :
  Forall (λ c, p c = true) ws → lstrip_by p (ws ++ s) = lstrip_by p s.
Proof. induction 1 as [|c ws Hc _ IH]; cbn; [done|]. by rewrite Hc. Qed.

Lemma lstrip_by_decomp s :
  ∃ ws, Forall (λ c, p c = true) ws ∧ s = ws ++ lstrip_by p s.
Proof.
  induction s as [|c s (ws & Hws & IH)]; [by exists []|]. cbn.
  destruct (p c) eqn:Hc.
  - exists (c :: ws). split; [by constructor|]. cbn. by f_equal.
  - by exists [].
Qed.

Lemma lstrip_by_keep s t :
  lstrip_by p s ≠ [] → lstrip_by p (s ++ t) = lstrip_by p s ++ t.
Proof.
  induction s as [|c s IH]; cbn; [done|]. destruct (p c); [apply IH|done].
Qed.

Lemma lstrip_by_nil s :
  lstrip_by p s = [] → Forall (λ c, p c = true) s.
Proof.
  intros Hnil. destruct (lstrip_by_decomp s) as (ws & Hws & Hs).
  rewrite Hnil, app_nil_r in Hs. by subst.
Qed.

Lemma rstrip_by_all ws s :
  Forall (λ c, p c = true) ws → rstrip_by p (s ++ ws) = rstrip_by p s.
Proof.
  intros Hws. unfold rstrip_by. rewrite reverse_app, lstrip_by_all; [done|].
  by apply Forall_reverse.
Qed.

Lemma rstrip_by_decomp s :
  ∃ ws, Forall (λ c, p c = true) ws ∧ s = rstrip_by p s ++ ws.
Proof.
  destruct (lstrip_by_decomp (reverse s)) as (ws & Hws & Hs).
  exists (reverse ws). split; [by apply Forall_reverse|].
  unfold rstrip_by. by rewrite <- reverse_app, <- Hs, reverse_involutive.
Qed.
End strip_by.

Lemma strip_space_r s ws :
  Forall (λ c, isspace c = true) ws → strip (s ++ ws) = strip s.
Proof.
  intros Hws. unfold strip.
  destruct (decide (lstrip_by isspace s = [])) as [Hnil|Hkeep].
  - rewrite Hnil, lstrip_by_all; [|by apply lstrip_by_nil].
    rewrite <- (app_nil_r ws), lstrip_by_all by done. done.
  - rewrite lstrip_by_keep by done. by apply rstrip_by_all.
Qed.

Lemma strip_space_l s ws :
  Forall (λ c, isspace c = true) ws → strip (ws ++ s) = strip s.
Proof. intros Hws. unfold strip. by rewrite lstrip_by_all. Qed.

Lemma strip_decomp t :
  ∃ ws1 ws2, Forall (λ c, isspace c = true) ws1
             ∧ Forall (λ c, isspace c = true) ws2
             ∧ t = ws1 ++ strip t ++ ws2.
Proof.
  destruct (lstrip_by_decomp isspace t) as (ws1 & Hws1 & Ht).
  destruct (rstrip_by_decomp isspace (lstrip_by isspace t))
    as (ws2 & Hws2 & Hl).
  exists ws1, ws2. split; [done|]. split; [done|].
  unfold strip. by rewrite <- Hl.
Qed.

Lemma strip_idem t : strip (strip t) = strip t.
Proof.
  destruct (strip_decomp t) as (ws1 & ws2 & Hws1 & Hws2 & Ht).
  rewrite Ht at 2. by rewrite strip_space_l, strip_space_r.
Qed.

Lemma split_at_cur sep s : ∀ cur,
  split_at sep cur s
  = (cur ++ default [] (head (split_at sep [] s))) :: tail (split_at sep [] s).
Proof.
  induction s as [|c s IH]; intros cur; cbn.
  - by rewrite app_nil_r.
  - case_bool_decide; cbn; [by rewrite app_nil_r|].
    rewrite (IH (cur ++ [c])), (IH [c]). cbn. by rewrite <- (assoc_L (++)).
Qed.

Lemma split_at_nonnil sep s cur : split_at sep cur s ≠ [].
Proof. rewrite split_at_cur. done. Qed.

Lemma split_at_app sep x y : ∀ cur,
  split_at sep cur (x ++ sep :: y) = split_at sep cur x ++ split_at sep [] y.
Proof.
  induction x as [|c x IH]; intros cur; cbn.
  - by rewrite bool_decide_eq_true_2.
  - case_bool_decide; cbn; by rewrite IH.
Qed.

Lemma split_at_no_sep_one sep s : ∀ cur,
  sep ∉ s → split_at sep cur s = [cur ++ s].
Proof.
  induction s as [|c s IH]; intros cur Hs; cbn.
  - by rewrite app_nil_r.
  - apply not_elem_of_cons in Hs as [Hc Hs].
    rewrite bool_decide_eq_false_2 by congruence.
    rewrite IH by done. by rewrite <- (assoc_L (++)).
Qed.

Lemma split_at_shift sep ws s : ∀ cur,
  sep ∉ ws → split_at sep cur (ws ++ s) = split_at sep (cur ++ ws) s.
Proof.
  induction ws as [|c ws IH]; intros cur Hws; cbn.
  - by rewrite app_nil_r.
  - apply not_elem_of_cons in Hws as [Hc Hws].
    rewrite bool_decide_eq_false_2 by congruence.
    rewrite IH by done. by rewrite <- (assoc_L (++)).
Qed.

Lemma space_no_waw ws : Forall (λ c, isspace c = true) ws → WA ∉ ws.
Proof.
  intros Hws Hin. rewrite Forall_forall in Hws. apply Hws in Hin.
  vm_compute in Hin. discriminate.
Qed.

Lemma part_value_space_l ws part :
  Forall (λ c, isspace c = true) ws → part_value (ws ++ part) = part_value part.
Proof. intros Hws. unfold part_value. by rewrite strip_space_l. Qed.

Lemma part_value_space_r ws part :
  Forall (λ c, isspace c = true) ws → part_value (part ++ ws) = part_value part.
Proof. intros Hws. unfold part_value. by rewrite strip_space_r. Qed.

Lemma part_values_space_l ws s :
  Forall (λ c, isspace c = true) ws →
  part_value <$> split WA (ws ++ s) = part_value <$> split WA s.
Proof.
  intros Hws. unfold split.
  rewrite split_at_shift by by apply space_no_waw.
  rewrite split_at_cur.
  destruct (split_at WA [] s) as [|hd tl] eqn:Hs.
  { by apply split_at_nonnil in Hs. }
  cbn [app head tail default fmap list_fmap].
  by rewrite part_value_space_l.
Qed.

Lemma part_values_space_r ws s : ∀ cur,
  Forall (λ c, isspace c = true) ws →
  part_value <$> split_at WA cur (s ++ ws) = part_value <$> split_at WA cur s.
Proof.
  induction s as [|c s IH]; intros cur Hws; cbn [app split_at].
  - rewrite split_at_no_sep_one by by apply space_no_waw.
    cbn [fmap list_fmap]. by rewrite part_value_space_r.
  - case_bool_decide; cbn [fmap list_fmap]; by rewrite IH.
Qed.

Lemma part_values_strip t :
  part_value <$> split WA (strip t) = part_value <$> split WA t.
Proof.
  destruct (strip_decomp t) as (ws1 & ws2 & Hws1 & Hws2 & Ht).
  rewrite Ht at 2. rewrite part_values_space_l by done.
  unfold split. by rewrite part_values_space_r.
Qed.

Lemma Zsum_app l1 l2 : Zsum (l1 ++ l2) = Zsum l1 + Zsum l2.
Proof. unfold Zsum. induction l1 as [|x l1 IH]; cbn [app foldr]; lia. Qed.

Lemma words_to_number_flat t :
  words_to_number t = Ok (Zsum (part_value <$> split WA t)).
Proof.
  rewrite words_to_number_sum. f_equal. case_bool_decide as Hzero.
  - rewrite <- part_values_strip, Hzero. vm_compute. reflexivity.
  - rewrite <- list_fmap_compose, <- part_values_strip. f_equal.
    apply list_fmap_ext. intros i part _. cbn. unfold part_value.
    by rewrite strip_idem.
Qed.

(** X15: the decoder is a flat sum: for every text the result is the sum,
    over the parts of the text between waw letters, of the table value of
    the trimmed part (0 when the trimmed part is not a key); the shortcut
    for the zero word and the trimming of the whole text do not change this
    value. *)
Theorem words_to_number_flat_sum (t : str) :
  words_to_number t
  = Ok (Zsum ((λ part, default 0 (build_word_map !! strip part))
                <$> split WA t)).
Proof. apply words_to_number_flat. Qed.

(** X16: decoding is additive over the letter waw and does not depend on
    the order of the two sides: the value of a ++ waw ++ b is the value of a
    plus the value of b. *)
Theorem words_to_number_additive (a b : str) :
  ∃ za zb,
    words_to_number a = Ok za ∧ words_to_number b = Ok zb
    ∧ words_to_number (a ++ [WA] ++ b) = Ok (za + zb)
    ∧ words_to_number (b ++ [WA] ++ a) = Ok (za + zb).
Proof.
  exists (Zsum (part_value <$> split WA a)), (Zsum (part_value <$> split WA b)).
  rewrite !words_to_number_flat. unfold split. cbn [app].
  rewrite !split_at_app, !fmap_app, !Zsum_app.
  repeat split. f_equal. lia.
Qed.

(** X17: white space around the text is ignored: adding white-space
    characters before and after a text does not change the decoded value,
    and a text of white space only decodes to 0. *)
Theorem words_to_number_ignores_outer_space (ws1 ws2 t : str) :
  Forall (λ c, isspace c = true) ws1 → Forall (λ c, isspace c = true) ws2 →
  words_to_number (ws1 ++ t ++ ws2) = words_to_number t
  ∧ words_to_number (ws1 ++ ws2) = Ok 0.
Proof.
  intros Hws1 Hws2.
  assert (∀ s, words_to_number (ws1 ++ s ++ ws2) = words_to_number s) as Hpad.
  { intros s. rewrite !words_to_number_flat.
    rewrite part_values_space_l by done.
    unfold split. by rewrite part_values_space_r. }
  split; [apply Hpad|]. specialize (Hpad []). cbn [app] in Hpad.
  rewrite Hpad. vm_compute. reflexivity.
Qed.

Lemma words_to_number_ignores_outer_space_witness :
  words_to_number (lit "  " ++ lit "خمسة عشر" ++ [10%N])
  = words_to_number (lit "خمسة عشر")
  ∧ words_to_number (lit "  " ++ [10%N]) = Ok 0.
Proof.
  apply words_to_number_ignores_outer_space;
    apply (bool_decide_unpack _); vm_compute; exact I.
Defined.

(** X18: a text that does not contain the letter waw is looked up as a
    whole: it decodes to the table value of its trimmed form, or to 0 when
    the trimmed form is not a key. *)
Theorem words_to_number_without_waw (t : str) :
  WA ∉ t →
  words_to_number t = Ok (default 0 (build_word_map !! strip t)).
Proof.
  intros Hwaw. rewrite words_to_number_flat. unfold split.
  rewrite split_at_no_sep_one by done. cbn. unfold part_value.
  f_equal. lia.
Qed.

Lemma words_to_number_without_waw_witness :
  words_to_number (lit " مئتان ")
  = Ok (default 0 (build_word_map !! strip (lit " مئتان "))).
Proof.
  apply words_to_number_without_waw.
  apply (bool_decide_unpack _). vm_compute. exact I.
Defined.

(** X19: on [0, 999] decoding the encoder's output gives n back exactly
    when n mod 100 is 0 or lies in [2, 19], that is, when no word of n
    contains the letter waw. *)
Theorem roundtrip_small_iff (n : Z) :
  0 ≤ n ≤ 999 →
  ((number_to_words n ≫= words_to_number) = Ok n
   ↔ n `mod` 100 = 0 ∨ 2 ≤ n `mod` 100 ≤ 19).
Proof.
  intros Hn.
  pose proof (forallb_seqZ
    (λ n, bool_decide
            (bool_decide ((number_to_words n ≫= words_to_number) = Ok n)
             = bool_decide (n `mod` 100 = 0 ∨ 2 ≤ n `mod` 100 ≤ 19)))
    0 1000 n) as Hcheck.
  cbn beta in Hcheck.
  assert (bool_decide ((number_to_words n ≫= words_to_number) = Ok n)
          = bool_decide (n `mod` 100 = 0 ∨ 2 ≤ n `mod` 100 ≤ 19)) as Heq.
  { apply (bool_decide_eq_true_1 _), Hcheck;
      [vm_cast_no_check (eq_refl true)|lia]. }
  rewrite <- (bool_decide_eq_true (_ = Ok n)), Heq.
  apply bool_decide_eq_true.
Qed.

Lemma roundtrip_small_iff_witness :
  (number_to_words 112 ≫= words_to_number) = Ok 112.
Proof.
  apply (roundtrip_small_iff 112); [lia|]. right. vm_compute.
  split; discriminate.
Defined.
